(** * NEROSYS, cogs/example/example.py: custom trigger manager

    A shallow embedding of the [Example] cog: the per-guild settings and
    [messages] table, the in-memory cooldown dictionary, the slash commands
    that edit the table and the [on_message] listener that answers a message
    containing a stored trigger.

    Conventions of the model
    - Discord ids (guilds, users, channels) and SQL integers are [Z].
    - Python [str] is [string]; [str.lower] is a parameter [str_lower] of
      [trig_add] and of what is built on it, and [lower] is its instance for
      ASCII strings.
    - A timestamp ([datetime.now().timestamp()], seconds since the epoch) is
      the rational value of a float; the sum [last_resp + guild_cooldown] is
      rounded as Python rounds it ([python_add]).  The two clock readings of
      [on_message] are separate arguments [now] and [now'].
    - The cog's effects (store, cooldown dictionary, messages sent, store
      failures) are threaded through a state-and-exception monad [M]; an
      exception leaves the state as it was when it was raised, as in Python.
    - [common/dataio.py] and [common/utils/fuzzy.py] are not among the sources:
      the store is modelled by what the SQL statements and the settings
      accessors of the cog ask of it, and the fuzzy finder used by the
      autocompletion of [trig remove] is a parameter. *)

From Stdlib Require Import ZArith QArith String Ascii List Bool Lia Lqa.
From stdpp Require Import gmap strings list sorting pretty.

Local Open Scope Z_scope.

(** ** Strings *)

(** [c.lower()] on one ASCII character: ['A'..'Z'] (65..90) move by 32. *)
Definition lower_ascii (c : ascii) : ascii :=
  let n := nat_of_ascii c in
  if ((65 <=? n)%nat && (n <=? 90)%nat)%bool then ascii_of_nat (n + 32) else c.

(** [s.lower()] for an ASCII string [s]: the instance of [str.lower] that the
    scenarios below run with. *)
Fixpoint lower (s : string) : string :=
  match s with
  | EmptyString => EmptyString
  | String c s' => String (lower_ascii c) (lower s')
  end.

(** [s.startswith(t)] *)
Fixpoint startswith (s t : string) {struct t} : bool :=
  match t, s with
  | EmptyString, _ => true
  | String _ _, EmptyString => false
  | String b t', String a s' => if Ascii.eqb a b then startswith s' t' else false
  end.

(** [t in s] on two [str]: [t] occurs in [s] as a contiguous substring. *)
Fixpoint str_in (t s : string) : bool :=
  startswith s t
  || match s with
     | EmptyString => false
     | String _ s' => str_in t s'
     end.

(** ** Data model *)

(** One row of the [messages] table
    ([id INTEGER PRIMARY KEY AUTOINCREMENT, trigger TEXT, response TEXT,
      author_id INTEGER]), as the dict [fetch_all] returns for it. *)
Record Row := {
  row_id : Z;
  row_trigger : string;
  row_response : string;
  row_author_id : Z
}.

(** Modelled from the spec: the per-guild storage unit of [common/dataio.py]
    (not part of the sources at hand).  The [settings] table is read through
    [get_dict_value(..., cast=bool/int)], so the two settings are kept with
    the types they are read at; [sqlite_sequence] is the AUTOINCREMENT counter
    of the [messages] table (ids are never reused). *)
Record GuildData := {
  enabled : bool;
  cooldown : Z;
  messages : list Row;
  sqlite_sequence : Z
}.

(** [default_settings = {'enabled': 1, 'cooldown': 5}] and an empty table. *)
Definition default_data : GuildData :=
  {| enabled := true; cooldown := 5; messages := []; sqlite_sequence := 0 |}.

(** The state the cog reads and writes.
    - [db]: the guild storage units, created with the defaults on first access;
    - [cooldowns]: [self.__cooldowns], [{guild_id: {user_id: timestamp}}];
    - [sent]: what [message.channel.send] has delivered, oldest first, as
      (channel id, text);
    - [faults]: for each coming store operation, whether it fails. *)
Record World := {
  db : gmap Z GuildData;
  cooldowns : gmap Z (gmap Z Q);
  sent : list (Z * string);
  faults : list bool
}.

Definition set_db (f : gmap Z GuildData → gmap Z GuildData) (w : World) : World :=
  {| db := f (db w); cooldowns := cooldowns w; sent := sent w; faults := faults w |}.
Definition set_cooldowns (f : gmap Z (gmap Z Q) → gmap Z (gmap Z Q)) (w : World) : World :=
  {| db := db w; cooldowns := f (cooldowns w); sent := sent w; faults := faults w |}.
Definition set_sent (f : list (Z * string) → list (Z * string)) (w : World) : World :=
  {| db := db w; cooldowns := cooldowns w; sent := f (sent w); faults := faults w |}.
Definition set_faults (f : list bool → list bool) (w : World) : World :=
  {| db := db w; cooldowns := cooldowns w; sent := sent w; faults := f (faults w) |}.

(** The state at start-up: nothing stored, [self.__cooldowns = {}]. *)
Definition init (fs : list bool) : World :=
  {| db := ∅; cooldowns := ∅; sent := []; faults := fs |}.

(** [discord.Message], the fields the listener reads.  [msg_guild] is [None]
    when [message.guild] is not a [discord.Guild] (a private channel). *)
Record Message := {
  msg_guild : option Z;
  msg_channel : Z;
  msg_author : Z;
  msg_author_bot : bool;
  msg_content : string
}.

(** [discord.Interaction], the fields the commands read. *)
Record Interaction := {
  int_guild : option Z;
  int_user : Z
}.

(** ** The monad of the cog *)

Inductive exn := StoreUnavailable.

Inductive outcome (A : Type) :=
| Returned (a : A)
| Raised (e : exn).
Arguments Returned {A} a.
Arguments Raised {A} e.

Definition M (A : Type) : Type := World → outcome A * World.

Definition ret {A} (a : A) : M A := λ w, (Returned a, w).

Definition bind {A B} (c : M A) (k : A → M B) : M B := λ w,
  match c w with
  | (Returned a, w') => k a w'
  | (Raised e, w') => (Raised e, w')
  end.

Notation "x <- c ;; k" := (bind c (λ x, k))
  (at level 100, c at next level, k at level 200, right associativity, only parsing).
Notation "c ;;; k" := (bind c (λ _, k))
  (at level 100, k at level 200, right associativity, only parsing).

Definition result {A} (r : outcome A * World) : outcome A := r.1.
Definition after {A} (r : outcome A * World) : World := r.2.

(** ** Record store *)

(** [self.data.get(guild)]: the guild's storage unit, with the defaults when
    it has not been written yet. *)
Definition guild_data (w : World) (g : Z) : GuildData :=
  default default_data (db w !! g).

(** Modelled from the spec: a read of [common/dataio.py].  A store failure
    propagates as an error to the caller; the next entry of [faults] says
    whether this operation fails. *)
Definition store_read {A} (g : Z) (f : GuildData → A) : M A := λ w,
  match faults w with
  | true :: _ => (Raised StoreUnavailable, set_faults tail w)
  | _ => (Returned (f (guild_data w g)), set_faults tail w)
  end.

(** Modelled from the spec: a write of [common/dataio.py]. *)
Definition store_write (g : Z) (f : GuildData → GuildData) : M unit := λ w,
  match faults w with
  | true :: _ => (Raised StoreUnavailable, set_faults tail w)
  | _ => (Returned tt, set_faults tail (set_db (insert g (f (guild_data w g))) w))
  end.

(** Modelled from the spec: what [execute] of [common/dataio.py] does with
    [INSERT INTO messages (trigger, response, author_id) VALUES (?, ?, ?)];
    the store assigns the next id and the new row comes last. *)
Definition sql_insert (t r : string) (a : Z) (d : GuildData) : GuildData :=
  let i := sqlite_sequence d + 1 in
  {| enabled := enabled d; cooldown := cooldown d;
     messages := messages d ++
       [{| row_id := i; row_trigger := t; row_response := r; row_author_id := a |}];
     sqlite_sequence := i |}.

(** Modelled from the spec: what [execute] of [common/dataio.py] does with
    [DELETE FROM messages WHERE id = ?]; the other rows keep their order. *)
Definition sql_delete (i : Z) (d : GuildData) : GuildData :=
  {| enabled := enabled d; cooldown := cooldown d;
     messages := filter (λ r, row_id r ≠ i) (messages d);
     sqlite_sequence := sqlite_sequence d |}.

Definition set_dict_enabled (b : bool) (d : GuildData) : GuildData :=
  {| enabled := b; cooldown := cooldown d;
     messages := messages d; sqlite_sequence := sqlite_sequence d |}.

Definition set_dict_cooldown (c : Z) (d : GuildData) : GuildData :=
  {| enabled := enabled d; cooldown := c;
     messages := messages d; sqlite_sequence := sqlite_sequence d |}.

(** ** Settings *)

Definition is_enabled (guild : Z) : M bool := store_read guild enabled.

Definition set_enabled (guild : Z) (b : bool) : M unit :=
  store_write guild (set_dict_enabled b).

Definition get_guild_cooldown (guild : Z) : M Z := store_read guild cooldown.

Definition set_guild_cooldown (guild : Z) (c : Z) : M unit :=
  store_write guild (set_dict_cooldown c).

(** ** Messages table *)

(** [r = fetch_all('SELECT * FROM messages'); return r if r else []] *)
Definition get_messages (guild : Z) : M (list Row) :=
  r <- store_read guild messages ;;
  ret (match r with [] => [] | _ :: _ => r end).

Definition add_message (guild : Z) (trigger response : string) (author_id : Z) : M unit :=
  store_write guild (sql_insert trigger response author_id).

Definition remove_message (guild : Z) (id : Z) : M unit :=
  store_write guild (sql_delete id).

(** ** Commands *)

(** What a command answers through [interaction.response.send_message]:
    - [NotInScope]: "Cette commande n'est pas disponible en MP";
    - [DuplicateTrigger]: "Ce déclencheur est déjà utilisé";
    - [LimitExceeded]: "Tu as atteint le nombre maximum de messages de réponse";
    - [NoTriggers]: "Aucun message de réponse n'a été défini sur ce serveur";
    - [Listing]: the embed of [trig_list], one line per row;
    - [Success]: the "Succès" message of the command. *)
Inductive Reply :=
| NotInScope
| DuplicateTrigger
| LimitExceeded
| NoTriggers
| Listing (rows : list Row)
| Success.

Definition config_enable (interaction : Interaction) (b : bool) : M Reply :=
  match int_guild interaction with
  | None => ret NotInScope
  | Some guild =>
      set_enabled guild b ;;;
      ret Success
  end.

(** [cooldown: app_commands.Range[int, 0]]: the command layer only delivers
    integers from 0 on, hence [N]. *)
Definition config_cooldown (interaction : Interaction) (c : N) : M Reply :=
  match int_guild interaction with
  | None => ret NotInScope
  | Some guild =>
      set_guild_cooldown guild (Z.of_N c) ;;;
      ret Success
  end.

Definition trig_list (interaction : Interaction) : M Reply :=
  match int_guild interaction with
  | None => ret NotInScope
  | Some guild =>
      msgs <- get_messages guild ;;
      match msgs with
      | [] => ret NoTriggers
      | _ :: _ => ret (Listing msgs)
      end
  end.

(** [for msg in messages: if msg['trigger'] == trigger: return ...] *)
Definition trigger_used (trigger : string) (msgs : list Row) : bool :=
  existsb (λ msg, String.eqb (row_trigger msg) trigger) msgs.

(** [str_lower] is Python's [str.lower], which lower-cases by the Unicode
    character database: it is a parameter of the model; [lower] is what it
    does on ASCII strings. *)
Definition trig_add (str_lower : string → string) (interaction : Interaction)
    (trigger response : string) : M Reply :=
  match int_guild interaction with
  | None => ret NotInScope
  | Some guild =>
      let trigger := str_lower trigger in
      msgs <- get_messages guild ;;
      if trigger_used trigger msgs then ret DuplicateTrigger
      else if (Z.of_nat (length msgs) >=? 20)%Z then ret LimitExceeded
      else
        add_message guild trigger response (int_user interaction) ;;;
        ret Success
  end.

Definition trig_remove (interaction : Interaction) (id : Z) : M Reply :=
  match int_guild interaction with
  | None => ret NotInScope
  | Some guild =>
      remove_message guild id ;;;
      ret Success
  end.

(** ** Autocompletion of [trig remove] *)

(** [app_commands.Choice(name=..., value=...)] *)
Record Choice := {
  choice_name : string;
  choice_value : Z
}.

Section Autocomplete.

(** [fuzzy.finder(current, messages, key=lambda x: x['trigger'])] of
    [common/utils/fuzzy.py], which is not among the sources: it is a
    parameter, the rows it returns for the text typed so far. *)
Variable finder : string → list Row → list Row.

(** [f"{result['id']} : {result['trigger']}"] *)
Definition choice_of (result : Row) : Choice :=
  {| choice_name := (pretty (row_id result) +:+ " : " +:+ row_trigger result)%string;
     choice_value := row_id result |}.

Definition trig_remove_autocomplete (interaction : Interaction) (current : string)
    : M (list Choice) :=
  match int_guild interaction with
  | None => ret []
  | Some guild =>
      msgs <- get_messages guild ;;
      let results := finder current msgs in
      ret (map choice_of results)
  end.

End Autocomplete.

(** ** Cooldown dictionary *)

(** [self.__cooldowns.setdefault(guild_id, {})]; the dictionary it returns is
    the entry itself, which the model addresses by its key. *)
Definition cooldowns_setdefault (guild : Z) : M unit := λ w,
  match cooldowns w !! guild with
  | Some _ => (Returned tt, w)
  | None => (Returned tt, set_cooldowns (insert guild ∅) w)
  end.

Definition guild_cds (w : World) (guild : Z) : gmap Z Q :=
  default ∅ (cooldowns w !! guild).

(** [cds.setdefault(user_id, dflt)] *)
Definition cds_setdefault (guild user : Z) (dflt : Q) : M Q := λ w,
  match guild_cds w guild !! user with
  | Some t => (Returned t, w)
  | None =>
      (Returned dflt, set_cooldowns (insert guild (<[user := dflt]> (guild_cds w guild))) w)
  end.

(** [cds[user_id] = t] *)
Definition cds_setitem (guild user : Z) (t : Q) : M unit := λ w,
  (Returned tt, set_cooldowns (insert guild (<[user := t]> (guild_cds w guild))) w).

(** The timestamp of the last response to [user] in [guild] as the listener
    sees it: the stored value, 0 when there is none. *)
Definition last_response (w : World) (guild user : Z) : Q :=
  default 0%Q (guild_cds w guild !! user).

(** ** Listener *)

(** [await message.channel.send(text, silent=True)] *)
Definition channel_send (channel : Z) (text : string) : M unit := λ w,
  (Returned tt, set_sent (λ l, l ++ [(channel, text)]) w).

(** *** Python numbers

    A finite Python float (IEEE 754 binary64) is a whole number of units of
    2^-1074 that has at most 53 significant bits and is below 2^1024; a
    timestamp is the rational value of such a float.  Sums of floats are
    rounded to the nearest float, ties to the even one. *)

(** 2^1074, the number of units in 1. *)
Definition float_unit : positive := (2 ^ 1074)%positive.

(** [q] in units of 2^-1074, when it is a whole number of them. *)
Definition to_units (q : Q) : option Z :=
  let n := Qnum q * Zpos float_unit in
  let d := Zpos (Qden q) in
  if n mod d =? 0 then Some (n / d) else None.

Definition of_units (N : Z) : Q := N # float_unit.

(** [a / u] rounded to the nearest integer, ties to the even one. *)
Definition half_even (a u : Z) : Z :=
  let q := a / u in
  let r := a mod u in
  if 2 * r <? u then q
  else if u <? 2 * r then q + 1
  else if Z.even q then q else q + 1.

(** The exponent of the last of the 53 significant bits of [a] units (the
    subnormal numbers keep the exponent 0). *)
Definition ulp_exp (a : Z) : Z := Z.max 0 (Z.log2 a - 52).

(** [a] units, [a >= 0], rounded to 53 significant bits. *)
Definition round_nat (a : Z) : Z := half_even a (2 ^ ulp_exp a) * 2 ^ ulp_exp a.

(** [N] units rounded to the nearest float.  A result of 2^1024 or more
    stands for [inf]: it compares with every float as [inf] does. *)
Definition round_units (N : Z) : Z := Z.sgn N * round_nat (Z.abs N).

Definition is_float_units (N : Z) : bool :=
  (round_units N =? N) && (Z.abs N <? 2 ^ 2098).

(** [q] is the value of a finite float. *)
Definition is_float (q : Q) : bool :=
  match to_units q with
  | Some N => is_float_units N
  | None => false
  end.

(** [last_resp + guild_cooldown], an [int] added to what the cooldown
    dictionary holds.
    - [last_resp] is 0: it is the [int] 0 that [setdefault] stored, and the sum
      is the [int] [guild_cooldown], exact.  (A clock reading of exactly 0.0
      gives the same sum for every cooldown up to 2^53, the largest integer a
      command option carries.)
    - [last_resp] is a float: [guild_cooldown] is converted to the nearest
      float and the two floats are added, the sum rounded to the nearest
      float.  (Python refuses to convert an [int] of 2^1024 or more; no
      command option carries one.)
    - A rational that is not the value of a float is no clock reading; the
      sum is left exact there. *)
Definition python_add (last_resp : Q) (guild_cooldown : Z) : Q :=
  if Qeq_bool last_resp 0 then inject_Z guild_cooldown
  else
    match to_units last_resp with
    | Some N =>
        if is_float_units N
        then of_units (round_units (N + round_units (guild_cooldown * Zpos float_unit)))
        else (last_resp + inject_Z guild_cooldown)%Q
    | None => (last_resp + inject_Z guild_cooldown)%Q
    end.

(** [last_resp + guild_cooldown > now], the test that makes the listener
    return while the cooldown runs; the comparison of two numbers is exact. *)
Definition cooling_down (last_resp : Q) (guild_cooldown : Z) (now : Q) : bool :=
  negb (Qle_bool (python_add last_resp guild_cooldown) now).

(** The loop of [on_message]: answer the first row whose trigger is in the
    content, store the time [now'] read after the send, and [break]. *)
Fixpoint respond (message : Message) (guild : Z) (now' : Q) (msgs : list Row) : M unit :=
  match msgs with
  | [] => ret tt
  | msg :: rest =>
      if str_in (row_trigger msg) (msg_content message) then
        channel_send (msg_channel message) (row_response msg) ;;;
        cds_setitem guild (msg_author message) now'
      else respond message guild now' rest
  end.

(** [now] is the clock read by the cooldown test, [now'] the clock read when
    the response has been sent. *)
Definition on_message (now now' : Q) (message : Message) : M unit :=
  match msg_guild message with
  | None => ret tt
  | Some guild =>
      if msg_author_bot message then ret tt
      else
        en <- is_enabled guild ;;
        if negb en then ret tt
        else
          guild_cooldown <- get_guild_cooldown guild ;;
          cooldowns_setdefault guild ;;;
          last_resp <- cds_setdefault guild (msg_author message) 0%Q ;;
          if cooling_down last_resp guild_cooldown now then ret tt
          else
            msgs <- get_messages guild ;;
            respond message guild now' msgs
  end.

(** ** Runs of the cog *)

(** What the hosting bot delivers to the cog. *)
Inductive Event :=
| ConfigEnable (interaction : Interaction) (b : bool)
| ConfigCooldown (interaction : Interaction) (c : N)
| TrigList (interaction : Interaction)
| TrigAdd (interaction : Interaction) (trigger response : string)
| TrigRemove (interaction : Interaction) (id : Z)
| OnMessage (now now' : Q) (message : Message).

Definition handle (str_lower : string → string) (e : Event) (w : World) : World :=
  match e with
  | ConfigEnable i b => after (config_enable i b w)
  | ConfigCooldown i c => after (config_cooldown i c w)
  | TrigList i => after (trig_list i w)
  | TrigAdd i t r => after (trig_add str_lower i t r w)
  | TrigRemove i id => after (trig_remove i id w)
  | OnMessage now now' m => after (on_message now now' m w)
  end.

(** The state after the events [es], delivered in order from [w]. *)
Definition run (str_lower : string → string) (es : list Event) (w : World) : World :=
  fold_left (λ w e, handle str_lower e w) es w.

(** ** Invariants and observations *)

(** The store answers: no failure is pending. *)
Definition healthy (w : World) : Prop := faults w = [].

(** The rows come in strictly ascending id order. *)
Definition ids_ascending (rows : list Row) : Prop :=
  StronglySorted (λ a b, row_id a < row_id b) rows.

(** What the commands maintain on the [messages] table of a guild. *)
Record table_ok (str_lower : string → string) (d : GuildData) : Prop := {
  ok_ascending : ids_ascending (messages d);
  ok_issued : Forall (λ r, row_id r ≤ sqlite_sequence d) (messages d);
  ok_lowered : Forall (λ r, str_lower (row_trigger r) = row_trigger r) (messages d);
  ok_distinct : NoDup (row_trigger <$> messages d);
  ok_limit : (length (messages d) ≤ 20)%nat
}.

Definition db_ok (str_lower : string → string) (m : gmap Z GuildData) : Prop :=
  ∀ g, table_ok str_lower (default default_data (m !! g)).

Definition world_ok (str_lower : string → string) (w : World) : Prop :=
  db_ok str_lower (db w).

(** The first row of [msgs], in list order, whose trigger is in [content]. *)
Definition first_match (content : string) (msgs : list Row) : option Row :=
  List.find (λ r, str_in (row_trigger r) content) msgs.

(** The state once [on_message] has answered with [text] at time [now']. *)
Definition answered (message : Message) (guild : Z) (now' : Q) (text : string)
    (w : World) : World :=
  set_cooldowns (insert guild (<[msg_author message := now']> (guild_cds w guild)))
    (set_sent (λ l, l ++ [(msg_channel message, text)]) w).

(** The state once the two [setdefault] calls of [on_message] have run. *)
Definition touched (guild user : Z) (w : World) : World :=
  after (cds_setdefault guild user 0%Q (after (cooldowns_setdefault guild w))).

(** [w'] differs from [w] in nothing a user or an operator can observe: same
    store, same messages sent, same last-response times. *)
Definition quiet (w w' : World) : Prop :=
  db w' = db w ∧ sent w' = sent w ∧ ∀ g u, last_response w' g u = last_response w g u.

(** The guild an event comes from, if any. *)
Definition event_guild (e : Event) : option Z :=
  match e with
  | ConfigEnable i _ | ConfigCooldown i _ | TrigList i
  | TrigAdd i _ _ | TrigRemove i _ => int_guild i
  | OnMessage _ _ m => msg_guild m
  end.

(** [w'] is [w] after a command that may have rewritten the storage unit of
    [g] with [f]: nothing was sent, the cooldown dictionary is as it was, and
    the store is either as it was (a read, a failure) or has [f] applied to
    the unit of [g]. *)
Definition wrote (g : Z) (f : GuildData → GuildData) (w w' : World) : Prop :=
  sent w' = sent w
  ∧ cooldowns w' = cooldowns w
  ∧ (db w' = db w ∨ db w' = <[g := f (guild_data w g)]> (db w)).

(** ** Scenarios *)

(** One guild (id 1) with an operator (user 7) and members writing in
    channel 3, used to run the cog on concrete inputs; the triggers are ASCII
    strings and [str.lower] is [lower]. *)
Module Scenario.

Definition operator : Interaction := {| int_guild := Some 1; int_user := 7 |}.

Definition says (user : Z) (content : string) : Message :=
  {| msg_guild := Some 1; msg_channel := 3; msg_author := user;
     msg_author_bot := false; msg_content := content |}.

(** Two triggers; "gm" has the smaller id. *)
Definition greetings : World :=
  run lower [TrigAdd operator "gm" "good morning";
       TrigAdd operator "morning" "coffee?"] (init []).

(** User 10 was answered at time 0 (the cooldown was 0 then); the cooldown
    is 5 seconds now. *)
Definition answered_at_0 : World :=
  run lower [TrigAdd operator "gm" "good morning";
       ConfigCooldown operator 0;
       OnMessage 0 0 (says 10 "gm");
       ConfigCooldown operator 5] (init []).


(** One trigger, added in upper case first. *)
Definition hi : World := run lower [TrigAdd operator "hi" "hello"] (init []).

Definition hello : World := run lower [TrigAdd operator "Hello" "hi there"] (init []).

(** Twenty triggers, "a" to "t": the table is full. *)
Definition full : World :=
  run lower (map (λ t, TrigAdd operator t "ok")
         ["a"; "b"; "c"; "d"; "e"; "f"; "g"; "h"; "i"; "j";
          "k"; "l"; "m"; "n"; "o"; "p"; "q"; "r"; "s"; "t"]%string) (init []).

(** A trigger "gm" and, after it, an empty trigger. *)
Definition catch_all : World :=
  run lower [TrigAdd operator "gm" "good morning"; TrigAdd operator "" "always"] (init []).

(** The store fails at its third operation from here on, the
    [get_messages] of the listener. *)
Definition outage : World := set_faults (λ _, [false; false; true]) greetings.

(** User 10 was answered with the clock at 0.1, the float
    3602879701896397 / 2^55 (the cooldown was 0 then); the cooldown is 5
    seconds now. *)
Definition answered_at_tenth : World :=
  run lower [TrigAdd operator "gm" "good morning";
             ConfigCooldown operator 0;
             OnMessage (3602879701896397 # 36028797018963968)
               (3602879701896397 # 36028797018963968) (says 10 "gm");
             ConfigCooldown operator 5] (init []).

End Scenario.

(** * Properties *)

(** ** Strings *)

Section Strings.

Lemma lower_ascii_idemp c : lower_ascii (lower_ascii c) = lower_ascii c.
Proof. by destruct c as [[] [] [] [] [] [] [] []]. Qed.

Lemma lower_idemp s : lower (lower s) = lower s.
Proof.
  induction s as [|c s IH]; simpl; [done|].
  by rewrite lower_ascii_idemp, IH.
Qed.

(** [lower] moves the 26 capital letters and nothing else. *)
Lemma lower_ascii_letters :
  lower "ABCDEFGHIJKLMNOPQRSTUVWXYZ" = "abcdefghijklmnopqrstuvwxyz"%string
  ∧ lower "abcdefghijklmnopqrstuvwxyz 0123456789 @[`{ !?~" =
      "abcdefghijklmnopqrstuvwxyz 0123456789 @[`{ !?~"%string.
Proof. split; reflexivity. Qed.

Lemma append_cons c a b : (String c a ++ b)%string = String c (a ++ b)%string.
Proof. reflexivity. Qed.

Lemma startswith_spec s t :
  startswith s t = true ↔ ∃ b, s = (t ++ b)%string.
Proof.
  revert s. induction t as [|c t IH]; intros s; simpl.
  - split; [intros _; by exists s | done].
  - destruct s as [|a s]; simpl.
    + split; [discriminate | intros [b Hb]; discriminate].
    + setoid_rewrite append_cons.
      destruct (Ascii.eqb_spec a c) as [->|Hne].
      * rewrite IH. split; intros [b Hb]; exists b; congruence.
      * split; [discriminate | intros [b Hb]; congruence].
Qed.

(** [str_in] is Python's substring test: [t in s] holds exactly when
    [s] is [a + t + b] for some [a] and [b]. *)
Lemma str_in_spec t s :
  str_in t s = true ↔ ∃ a b, s = (a ++ t ++ b)%string.
Proof.
  induction s as [|c s IH]; simpl.
  - rewrite orb_false_r, startswith_spec. split.
    + intros [b Hb]. by exists EmptyString, b.
    + intros [a [b Hb]]. destruct a; [by exists b | discriminate].
  - rewrite orb_true_iff, startswith_spec, IH. split.
    + intros [[b Hb]|[a [b Hb]]].
      * by exists EmptyString, b.
      * exists (String c a), b. by rewrite append_cons, Hb.
    + intros [a [b Hb]]. destruct a as [|c' a].
      * left. by exists b.
      * right. exists a, b. rewrite append_cons in Hb. congruence.
Qed.

Lemma str_in_empty s : str_in EmptyString s = true.
Proof. by destruct s. Qed.

End Strings.

(** ** The monad and the store *)

Section Store.

Lemma set_faults_tail_healthy w : healthy w → set_faults tail w = w.
Proof. unfold healthy. destruct w; simpl. by intros ->. Qed.

Lemma store_read_healthy {A} g (f : GuildData → A) w :
  healthy w → store_read g f w = (Returned (f (guild_data w g)), w).
Proof.
  intros H. unfold store_read. rewrite (set_faults_tail_healthy w H).
  unfold healthy in H. by rewrite H.
Qed.

Lemma store_write_healthy g f w :
  healthy w →
  store_write g f w = (Returned tt, set_db (insert g (f (guild_data w g))) w).
Proof.
  intros H. unfold store_write. unfold healthy in H. rewrite H.
  f_equal. destruct w; simpl in *. by subst.
Qed.

Lemma get_messages_healthy g w :
  healthy w → get_messages g w = (Returned (messages (guild_data w g)), w).
Proof.
  intros H. unfold get_messages, bind. rewrite store_read_healthy by done.
  unfold ret. by destruct (messages _).
Qed.

(** A read changes nothing but the pending failures. *)
Lemma store_read_after {A} g (f : GuildData → A) w :
  after (store_read g f w) = set_faults tail w.
Proof. unfold store_read, after. by repeat case_match. Qed.

Lemma store_read_result {A} g (f : GuildData → A) w :
  result (store_read g f w) = Returned (f (guild_data w g))
  ∨ result (store_read g f w) = Raised StoreUnavailable.
Proof. unfold store_read, result. repeat case_match; auto. Qed.

Lemma get_messages_after g w : after (get_messages g w) = set_faults tail w.
Proof.
  unfold get_messages, bind, ret, store_read, after.
  by repeat case_match; simplify_eq/=.
Qed.

Lemma get_messages_result g w :
  result (get_messages g w) = Returned (messages (guild_data w g))
  ∨ result (get_messages g w) = Raised StoreUnavailable.
Proof.
  unfold get_messages, bind, ret, store_read, result.
  repeat case_match; simplify_eq/=; first [by right | left; congruence].
Qed.

(** A write either fails and leaves the store as it is, or replaces the
    storage unit of its guild. *)
Lemma store_write_db g f w :
  db (after (store_write g f w)) = db w
  ∨ db (after (store_write g f w)) = <[g := f (guild_data w g)]> (db w).
Proof. unfold store_write, after. repeat case_match; simpl; auto. Qed.

Lemma store_read_step {A} g (f : GuildData → A) w :
  store_read g f w = (Returned (f (guild_data w g)), set_faults tail w)
  ∨ store_read g f w = (Raised StoreUnavailable, set_faults tail w).
Proof. unfold store_read. repeat case_match; auto. Qed.

Lemma store_read_fails {A} g (f : GuildData → A) w fs :
  faults w = true :: fs →
  store_read g f w = (Raised StoreUnavailable, set_faults tail w).
Proof. unfold store_read. by intros ->. Qed.

Lemma store_read_passes {A} g (f : GuildData → A) w fs :
  faults w = false :: fs →
  store_read g f w = (Returned (f (guild_data w g)), set_faults tail w).
Proof. unfold store_read. by intros ->. Qed.

Lemma faults_set_faults_tail w fs b : faults w = b :: fs → faults (set_faults tail w) = fs.
Proof. simpl. by intros ->. Qed.

Lemma get_messages_step g w :
  get_messages g w = (Returned (messages (guild_data w g)), set_faults tail w)
  ∨ get_messages g w = (Raised StoreUnavailable, set_faults tail w).
Proof.
  unfold get_messages, bind, ret.
  destruct (store_read_step g messages w) as [E|E]; rewrite E; [left | by right].
  by destruct (messages _).
Qed.

Lemma guild_data_insert g g' d w :
  guild_data (set_db (insert g d) w) g' = if decide (g = g') then d else guild_data w g'.
Proof.
  unfold guild_data. simpl. case_decide as Hg.
  - subst. by rewrite lookup_insert_eq.
  - by rewrite lookup_insert_ne.
Qed.

End Store.

(** ** The cooldown dictionary *)

Section Cooldowns.

Lemma quiet_refl w : quiet w w.
Proof. by repeat split. Qed.

Lemma quiet_trans w1 w2 w3 : quiet w1 w2 → quiet w2 w3 → quiet w1 w3.
Proof.
  intros (Hd1 & Hs1 & Hl1) (Hd2 & Hs2 & Hl2).
  split; [congruence|]. split; [congruence|].
  intros g u. by rewrite Hl2.
Qed.

Lemma quiet_guild_data w w' g : quiet w w' → guild_data w' g = guild_data w g.
Proof. intros (Hd & _). unfold guild_data. by rewrite Hd. Qed.

Lemma quiet_set_faults f w : quiet w (set_faults f w).
Proof. by repeat split. Qed.

Lemma cooldowns_setdefault_returns g w :
  cooldowns_setdefault g w = (Returned tt, after (cooldowns_setdefault g w)).
Proof. unfold cooldowns_setdefault, after. by case_match. Qed.

Lemma guild_cds_cooldowns_setdefault g g' w :
  guild_cds (after (cooldowns_setdefault g w)) g' = guild_cds w g'.
Proof.
  unfold cooldowns_setdefault, after, guild_cds.
  destruct (cooldowns w !! g) eqn:E; simpl; [done|].
  destruct (decide (g = g')) as [->|Hne].
  - by rewrite lookup_insert_eq, E.
  - by rewrite lookup_insert_ne.
Qed.

Lemma cds_setdefault_returns g u dflt w :
  cds_setdefault g u dflt w =
    (Returned (default dflt (guild_cds w g !! u)), after (cds_setdefault g u dflt w)).
Proof. unfold cds_setdefault, after. by case_match. Qed.

(** Reading the dictionary after [cds[u] = t] on the entry of [g]. *)
Lemma last_response_setitem g u t g' u' w :
  last_response (set_cooldowns (insert g (<[u := t]> (guild_cds w g))) w) g' u' =
    if decide (g' = g ∧ u' = u) then t else last_response w g' u'.
Proof.
  unfold last_response, guild_cds. simpl.
  destruct (decide (g' = g)) as [->|Hg].
  - rewrite lookup_insert_eq. simpl.
    destruct (decide (u' = u)) as [->|Hu].
    + rewrite lookup_insert_eq. by rewrite decide_True.
    + rewrite lookup_insert_ne by done.
      case_decide as H; [by destruct H | done].
  - rewrite lookup_insert_ne by done.
    case_decide as H; [by destruct H | done].
Qed.

Lemma last_response_cds_setdefault g u g' u' w :
  last_response (after (cds_setdefault g u 0%Q w)) g' u' = last_response w g' u'.
Proof.
  unfold cds_setdefault, after.
  destruct (guild_cds w g !! u) eqn:E; simpl; [done|].
  rewrite last_response_setitem. case_decide as H; [|done].
  destruct H as [-> ->]. unfold last_response. by rewrite E.
Qed.

Lemma quiet_touched g u w : quiet w (touched g u w).
Proof.
  unfold touched. repeat split.
  - unfold cds_setdefault, cooldowns_setdefault, after. by repeat case_match.
  - unfold cds_setdefault, cooldowns_setdefault, after. by repeat case_match.
  - intros g' u'. rewrite last_response_cds_setdefault.
    unfold last_response. by rewrite guild_cds_cooldowns_setdefault.
Qed.

Lemma faults_touched g u w : faults (touched g u w) = faults w.
Proof.
  unfold touched, cds_setdefault, cooldowns_setdefault, after.
  by repeat case_match.
Qed.

(** The two [setdefault] calls return the last-response time. *)
Lemma setdefaults_return g u w :
  cds_setdefault g u 0%Q (after (cooldowns_setdefault g w)) =
    (Returned (last_response w g u), touched g u w).
Proof.
  rewrite cds_setdefault_returns. unfold touched, last_response.
  by rewrite guild_cds_cooldowns_setdefault.
Qed.

Lemma db_answered m g now' text w :
  db (answered m g now' text w) = db w.
Proof. done. Qed.

Lemma sent_answered m g now' text w :
  sent (answered m g now' text w) = sent w ++ [(msg_channel m, text)].
Proof. done. Qed.

Lemma last_response_answered m g now' text w g' u' :
  last_response (answered m g now' text w) g' u' =
    if decide (g' = g ∧ u' = msg_author m) then now' else last_response w g' u'.
Proof.
  exact (last_response_setitem g (msg_author m) now' g' u'
           (set_sent (λ l, l ++ [(msg_channel m, text)]) w)).
Qed.

End Cooldowns.

(** ** The scan of [on_message] *)

Section Scan.

Variable content : string.

Local Abbreviation hit r := (str_in (row_trigger r) content).

Lemma first_match_None msgs :
  first_match content msgs = None ↔ ∀ r, r ∈ msgs → hit r = false.
Proof.
  unfold first_match. induction msgs as [|x l IH]; simpl.
  - split; [intros _ r Hr; by apply elem_of_nil in Hr | done].
  - destruct (hit x) eqn:Hx.
    + split; [done|]. intros H. specialize (H x (list_elem_of_here _ _)). congruence.
    + rewrite IH. split.
      * intros H r Hr. apply elem_of_cons in Hr as [->|Hr]; auto.
      * intros H r Hr. apply H. by apply list_elem_of_further.
Qed.

Lemma first_match_Some msgs r :
  first_match content msgs = Some r → r ∈ msgs ∧ hit r = true.
Proof.
  unfold first_match. induction msgs as [|x l IH]; simpl; [done|].
  destruct (hit x) eqn:Hx.
  - intros [= <-]. split; [apply list_elem_of_here | done].
  - intros H. destruct (IH H). split; [by apply list_elem_of_further | done].
Qed.

Lemma first_match_is_Some msgs r :
  r ∈ msgs → hit r = true → is_Some (first_match content msgs).
Proof.
  intros Hr Hhit. destruct (first_match content msgs) eqn:E; [by eexists|].
  rewrite first_match_None in E. specialize (E r Hr). congruence.
Qed.

(** With the rows in ascending id order, the first match is the match of
    least id. *)
Lemma first_match_least msgs r :
  ids_ascending msgs → first_match content msgs = Some r →
  ∀ r', r' ∈ msgs → hit r' = true → row_id r ≤ row_id r'.
Proof.
  unfold first_match, ids_ascending.
  induction msgs as [|x l IH]; simpl; [done|].
  rewrite StronglySorted_cons. intros [Hx Hl].
  destruct (hit x) eqn:E.
  - intros [= <-] r' Hr' _. apply elem_of_cons in Hr' as [->|Hr']; [lia|].
    rewrite Forall_forall in Hx. specialize (Hx r' Hr'). lia.
  - intros Hf r' Hr' Hhit. apply elem_of_cons in Hr' as [->|Hr']; [congruence|].
    by apply IH.
Qed.

Lemma ids_ascending_inj msgs r r' :
  ids_ascending msgs → r ∈ msgs → r' ∈ msgs → row_id r = row_id r' → r = r'.
Proof.
  unfold ids_ascending. induction msgs as [|x l IH]; simpl.
  - intros _ Hr. by apply elem_of_nil in Hr.
  - rewrite StronglySorted_cons, Forall_forall. intros [Hx Hl] Hr Hr' Hid.
    apply elem_of_cons in Hr as [->|Hr]; apply elem_of_cons in Hr' as [->|Hr'].
    + done.
    + specialize (Hx r' Hr'). lia.
    + specialize (Hx r Hr). lia.
    + by apply IH.
Qed.

Lemma first_match_of_least msgs r :
  ids_ascending msgs → r ∈ msgs → hit r = true →
  (∀ r', r' ∈ msgs → hit r' = true → row_id r ≤ row_id r') →
  first_match content msgs = Some r.
Proof.
  intros Hasc Hr Hhit Hleast.
  destruct (first_match_is_Some msgs r Hr Hhit) as [r1 E].
  destruct (first_match_Some msgs r1 E) as [Hr1 Hhit1].
  pose proof (first_match_least msgs r1 Hasc E r Hr Hhit).
  pose proof (Hleast r1 Hr1 Hhit1).
  rewrite E. f_equal. apply (ids_ascending_inj msgs); [done..|lia].
Qed.

End Scan.

(** ** The listener *)

Section Listener.

Variables (now now' : Q) (m : Message).

Lemma respond_spec g msgs w :
  respond m g now' msgs w =
    match first_match (msg_content m) msgs with
    | None => (Returned tt, w)
    | Some r => (Returned tt, answered m g now' (row_response r) w)
    end.
Proof.
  unfold first_match. induction msgs as [|x l IH]; simpl; [done|].
  destruct (str_in (row_trigger x) (msg_content m)); [done | apply IH].
Qed.

(** The listener when the store answers, in an enabled guild, for a human
    author. *)
Lemma on_message_healthy g w :
  msg_guild m = Some g → msg_author_bot m = false → healthy w →
  enabled (guild_data w g) = true →
  on_message now now' m w =
    let w1 := touched g (msg_author m) w in
    if cooling_down (last_response w g (msg_author m)) (cooldown (guild_data w g)) now
    then (Returned tt, w1)
    else match first_match (msg_content m) (messages (guild_data w g)) with
         | None => (Returned tt, w1)
         | Some r => (Returned tt, answered m g now' (row_response r) w1)
         end.
Proof.
  intros Hg Hbot Hw Hen. unfold on_message. rewrite Hg, Hbot.
  unfold bind, is_enabled, get_guild_cooldown.
  rewrite (store_read_healthy g enabled) by done. rewrite Hen. cbn [negb].
  rewrite (store_read_healthy g cooldown) by done.
  rewrite cooldowns_setdefault_returns, setdefaults_return.
  destruct (cooling_down _ _ _); [done|].
  assert (healthy (touched g (msg_author m) w)) as Hw1.
  { unfold healthy. by rewrite faults_touched. }
  rewrite get_messages_healthy by done.
  rewrite respond_spec.
  by rewrite (quiet_guild_data w _ g (quiet_touched g (msg_author m) w)).
Qed.

(** Whatever the store does, the listener either changes nothing that can
    be observed, or answers the first match and stores the time. *)
Lemma on_message_outcome w :
  quiet w (after (on_message now now' m w))
  ∨ ∃ g r w1,
      msg_guild m = Some g ∧ msg_author_bot m = false ∧ quiet w w1
      ∧ first_match (msg_content m) (messages (guild_data w g)) = Some r
      ∧ on_message now now' m w =
          (Returned tt, answered m g now' (row_response r) w1).
Proof.
  unfold on_message.
  destruct (msg_guild m) as [g|]; [|left; apply quiet_refl].
  destruct (msg_author_bot m); [left; apply quiet_refl|].
  unfold bind, is_enabled, get_guild_cooldown.
  destruct (store_read_step g enabled w) as [E|E]; rewrite E;
    [|left; apply quiet_set_faults].
  destruct (enabled (guild_data w g)); cbn [negb];
    [|left; apply quiet_set_faults].
  set (w1 := set_faults tail w).
  assert (quiet w w1) as Hq1 by apply quiet_set_faults.
  destruct (store_read_step g cooldown w1) as [E2|E2]; rewrite E2;
    [|left; eapply quiet_trans; [exact Hq1 | apply quiet_set_faults]].
  rewrite cooldowns_setdefault_returns, setdefaults_return.
  set (w3 := touched g (msg_author m) (set_faults tail w1)).
  assert (quiet w w3) as Hq3.
  { eapply quiet_trans; [exact Hq1|].
    eapply quiet_trans; [apply (quiet_set_faults tail) | apply quiet_touched]. }
  destruct (cooling_down _ _ _); [by left|].
  destruct (get_messages_step g w3) as [E3|E3]; rewrite E3;
    [|left; eapply quiet_trans; [exact Hq3 | apply quiet_set_faults]].
  rewrite respond_spec, (quiet_guild_data w w3 g Hq3).
  destruct (first_match _ _) as [r|] eqn:Ef.
  - right. exists g, r, (set_faults tail w3). repeat split; try done.
    + destruct Hq3 as (? & _). done.
    + destruct Hq3 as (_ & ? & _). done.
    + intros g' u'. destruct Hq3 as (_ & _ & H). apply H.
  - left. eapply quiet_trans; [exact Hq3 | apply quiet_set_faults].
Qed.

Lemma on_message_db w : db (after (on_message now now' m w)) = db w.
Proof.
  destruct (on_message_outcome w) as [(H & _)|(g & r & w1 & _ & _ & (H & _) & _ & E)].
  - done.
  - by rewrite E.
Qed.

End Listener.

(** ** The table invariant *)

Section Invariant.

Variable str_lower : string → string.

(** Lower-casing twice is lower-casing once. *)
Hypothesis str_lower_idemp : ∀ s, str_lower (str_lower s) = str_lower s.

Lemma table_ok_default : table_ok str_lower default_data.
Proof.
  split; simpl; try constructor. lia.
Qed.

Lemma db_ok_empty : db_ok str_lower ∅.
Proof. intros g. rewrite lookup_empty. apply table_ok_default. Qed.

Lemma db_ok_insert g d m : db_ok str_lower m → table_ok str_lower d → db_ok str_lower (<[g := d]> m).
Proof.
  intros Hm Hd g'. destruct (decide (g = g')) as [->|Hne].
  - by rewrite lookup_insert_eq.
  - rewrite lookup_insert_ne by done. apply Hm.
Qed.

Lemma table_ok_set_dict_enabled b d : table_ok str_lower d → table_ok str_lower (set_dict_enabled b d).
Proof. by intros []. Qed.

Lemma table_ok_set_dict_cooldown c d : table_ok str_lower d → table_ok str_lower (set_dict_cooldown c d).
Proof. by intros []. Qed.

Lemma trigger_used_spec t msgs :
  trigger_used t msgs = true ↔ ∃ r, r ∈ msgs ∧ row_trigger r = t.
Proof.
  unfold trigger_used. induction msgs as [|x l IH]; simpl.
  - split; [done | intros (r & Hr & _); by apply elem_of_nil in Hr].
  - rewrite orb_true_iff, IH, String.eqb_eq. split.
    + intros [Hx|(r & Hr & Ht)].
      * exists x. split; [apply list_elem_of_here | done].
      * exists r. split; [by apply list_elem_of_further | done].
    + intros (r & Hr & Ht). apply elem_of_cons in Hr as [->|Hr]; [by left|].
      right. by exists r.
Qed.

Lemma trigger_used_false t msgs :
  trigger_used t msgs = false ↔ t ∉ row_trigger <$> msgs.
Proof.
  rewrite <- not_true_iff_false, trigger_used_spec, list_elem_of_fmap.
  split; intros H (r & H1 & H2); apply H; exists r; by split.
Qed.

Lemma table_ok_sql_insert t r a d :
  table_ok str_lower d →
  trigger_used (str_lower t) (messages d) = false →
  (length (messages d) < 20)%nat →
  table_ok str_lower (sql_insert (str_lower t) r a d).
Proof.
  intros [Hasc Hiss Hlow Hdis Hlim] Hused Hlen. split; simpl.
  - unfold ids_ascending. apply StronglySorted_app; repeat split.
    + intros r1 r2 Hr1 Hr2. apply list_elem_of_singleton in Hr2 as ->. simpl.
      rewrite Forall_forall in Hiss. specialize (Hiss r1 Hr1). lia.
    + done.
    + repeat constructor.
  - apply Forall_app. split.
    + eapply Forall_impl; [exact Hiss|]. simpl. intros; lia.
    + repeat constructor. simpl. lia.
  - apply Forall_app. split; [done|].
    repeat constructor. simpl. apply str_lower_idemp.
  - rewrite fmap_app. apply NoDup_app. repeat split.
    + done.
    + simpl. intros x Hx Hx'. apply list_elem_of_singleton in Hx' as ->.
      by apply trigger_used_false in Hused.
    + simpl. apply NoDup_singleton.
  - rewrite length_app. simpl. lia.
Qed.

Lemma table_ok_sql_delete i d : table_ok str_lower d → table_ok str_lower (sql_delete i d).
Proof.
  intros [Hasc Hiss Hlow Hdis Hlim]. split; simpl.
  - clear -Hasc. unfold ids_ascending in *.
    induction (messages d) as [|x l IH]; [done|].
    apply StronglySorted_cons in Hasc as [Hx Hl].
    rewrite filter_cons. case_decide; [|by apply IH].
    apply StronglySorted_cons. split; [|by apply IH].
    rewrite Forall_forall in *. intros y Hy.
    apply list_elem_of_filter in Hy as [_ Hy]. by apply Hx.
  - rewrite Forall_forall in *. intros y Hy.
    apply list_elem_of_filter in Hy as [_ Hy]. by apply Hiss.
  - rewrite Forall_forall in *. intros y Hy.
    apply list_elem_of_filter in Hy as [_ Hy]. by apply Hlow.
  - clear -Hdis. induction (messages d) as [|x l IH]; [done|].
    rewrite fmap_cons in Hdis. apply NoDup_cons in Hdis as [Hx Hl].
    rewrite filter_cons. case_decide; [|by apply IH].
    rewrite fmap_cons. apply NoDup_cons. split; [|by apply IH].
    intros Hin. apply Hx. apply list_elem_of_fmap in Hin as (y & Hy & Hin).
    apply list_elem_of_filter in Hin as [_ Hin].
    apply list_elem_of_fmap. by exists y.
  - etrans; [apply length_filter | done].
Qed.

(** A write keeps the invariant when the new storage unit has it. *)
Lemma store_write_ok g f w :
  world_ok str_lower w → table_ok str_lower (f (guild_data w g)) → world_ok str_lower (after (store_write g f w)).
Proof.
  intros Hw Hd. unfold world_ok.
  destruct (store_write_db g f w) as [->| ->]; [done|].
  by apply db_ok_insert.
Qed.

Lemma world_ok_set_faults f w : world_ok str_lower w → world_ok str_lower (set_faults f w).
Proof. done. Qed.

Lemma guild_data_set_faults f w g : guild_data (set_faults f w) g = guild_data w g.
Proof. done. Qed.

Lemma config_enable_ok i b w : world_ok str_lower w → world_ok str_lower (after (config_enable i b w)).
Proof.
  intros Hw. unfold config_enable. destruct (int_guild i) as [g|]; [|done].
  unfold bind, set_enabled.
  pose proof (store_write_ok g (set_dict_enabled b) w Hw
                (table_ok_set_dict_enabled b _ (Hw g))) as H.
  by destruct (store_write g _ w) as [[[]|e] w'].
Qed.

Lemma config_cooldown_ok i c w : world_ok str_lower w → world_ok str_lower (after (config_cooldown i c w)).
Proof.
  intros Hw. unfold config_cooldown. destruct (int_guild i) as [g|]; [|done].
  unfold bind, set_guild_cooldown.
  pose proof (store_write_ok g (set_dict_cooldown (Z.of_N c)) w Hw
                (table_ok_set_dict_cooldown _ _ (Hw g))) as H.
  by destruct (store_write g _ w) as [[[]|e] w'].
Qed.

Lemma trig_list_ok i w : world_ok str_lower w → world_ok str_lower (after (trig_list i w)).
Proof.
  intros Hw. unfold trig_list. destruct (int_guild i) as [g|]; [|done].
  unfold bind. destruct (get_messages_step g w) as [E|E]; rewrite E; [|done].
  by destruct (messages _).
Qed.

Lemma trig_add_ok i t r w : world_ok str_lower w → world_ok str_lower (after (trig_add str_lower i t r w)).
Proof.
  intros Hw. unfold trig_add. destruct (int_guild i) as [g|]; [|done].
  unfold bind. destruct (get_messages_step g w) as [E|E]; rewrite E; [|done].
  destruct (trigger_used _ _) eqn:Hused; [done|].
  destruct (Z.geb_spec (Z.of_nat (length (messages (guild_data w g)))) 20) as [Hge|Hlt];
    [done|].
  unfold add_message.
  assert (world_ok str_lower (set_faults tail w)) as Hw1 by done.
  pose proof (store_write_ok g (sql_insert (str_lower t) r (int_user i)) _ Hw1) as H.
  rewrite guild_data_set_faults in H.
  assert (length (messages (guild_data w g)) < 20)%nat as Hlen by lia.
  specialize (H (table_ok_sql_insert _ _ _ _ (Hw g) Hused Hlen)).
  by destruct (store_write g _ _) as [[[]|e] w'].
Qed.

Lemma trig_remove_ok i id w : world_ok str_lower w → world_ok str_lower (after (trig_remove i id w)).
Proof.
  intros Hw. unfold trig_remove. destruct (int_guild i) as [g|]; [|done].
  unfold bind, remove_message.
  pose proof (store_write_ok g (sql_delete id) w Hw
                (table_ok_sql_delete id _ (Hw g))) as H.
  by destruct (store_write g _ w) as [[[]|e] w'].
Qed.

Lemma handle_ok e w : world_ok str_lower w → world_ok str_lower (handle str_lower e w).
Proof.
  intros Hw. destruct e; simpl.
  - by apply config_enable_ok.
  - by apply config_cooldown_ok.
  - by apply trig_list_ok.
  - by apply trig_add_ok.
  - by apply trig_remove_ok.
  - unfold world_ok. by rewrite on_message_db.
Qed.

Lemma run_ok es w : world_ok str_lower w → world_ok str_lower (run str_lower es w).
Proof.
  revert w. induction es as [|e es IH]; intros w Hw; simpl; [done|].
  apply IH. by apply handle_ok.
Qed.

(** Every state the cog can reach from start-up has the invariant. *)
Lemma reachable_ok es fs : world_ok str_lower (run str_lower es (init fs)).
Proof. apply run_ok. unfold world_ok. simpl. apply db_ok_empty. Qed.

(** An invariant of the storage units that the four writes keep is kept by
    every event; the insert only has to keep it where [trig_add] inserts. *)
Lemma store_write_keeps (P : GuildData → Prop) g f w :
  (∀ g', P (guild_data w g')) → P (f (guild_data w g)) →
  ∀ g', P (guild_data (after (store_write g f w)) g').
Proof.
  intros Hw Hd g'. unfold guild_data at 1.
  destruct (store_write_db g f w) as [->| ->]; [apply Hw|].
  destruct (decide (g = g')) as [->|Hne].
  - by rewrite lookup_insert_eq.
  - rewrite lookup_insert_ne by done. apply Hw.
Qed.

Lemma handle_keeps (P : GuildData → Prop) e w :
  (∀ b d, P d → P (set_dict_enabled b d)) →
  (∀ c d, P d → P (set_dict_cooldown c d)) →
  (∀ t r a d, P d → trigger_used (str_lower t) (messages d) = false →
              (length (messages d) < 20)%nat → P (sql_insert (str_lower t) r a d)) →
  (∀ id d, P d → P (sql_delete id d)) →
  (∀ g, P (guild_data w g)) →
  ∀ g, P (guild_data (handle str_lower e w) g).
Proof.
  intros Hen Hcd Hins Hdel Hw.
  destruct e as [i b|i c|i|i t r|i id|now now' m]; simpl.
  - unfold config_enable, set_enabled, bind. destruct (int_guild i) as [g0|]; [|done].
    pose proof (store_write_keeps P g0 (set_dict_enabled b) w Hw (Hen b _ (Hw g0))) as H.
    by destruct (store_write g0 _ w) as [[[]|e] w'].
  - unfold config_cooldown, set_guild_cooldown, bind.
    destruct (int_guild i) as [g0|]; [|done].
    pose proof (store_write_keeps P g0 (set_dict_cooldown (Z.of_N c)) w Hw
                  (Hcd _ _ (Hw g0))) as H.
    by destruct (store_write g0 _ w) as [[[]|e] w'].
  - unfold trig_list, bind. destruct (int_guild i) as [g0|]; [|done].
    destruct (get_messages_step g0 w) as [E|E]; rewrite E; [|done].
    by destruct (messages _).
  - unfold trig_add, add_message, bind. destruct (int_guild i) as [g0|]; [|done].
    destruct (get_messages_step g0 w) as [E|E]; rewrite E; [|done].
    destruct (trigger_used _ _) eqn:Hused; [done|].
    destruct (Z.geb_spec (Z.of_nat (length (messages (guild_data w g0)))) 20) as [Hge|Hlt];
      [done|].
    assert (length (messages (guild_data w g0)) < 20)%nat as Hlen by lia.
    pose proof (store_write_keeps P g0 (sql_insert (str_lower t) r (int_user i))
                  (set_faults tail w) Hw (Hins _ _ _ _ (Hw g0) Hused Hlen)) as H.
    by destruct (store_write g0 _ _) as [[[]|e] w'].
  - unfold trig_remove, remove_message, bind. destruct (int_guild i) as [g0|]; [|done].
    pose proof (store_write_keeps P g0 (sql_delete id) w Hw (Hdel _ _ (Hw g0))) as H.
    by destruct (store_write g0 _ w) as [[[]|e] w'].
  - intros g. unfold guild_data. rewrite on_message_db. apply Hw.
Qed.

Lemma run_keeps (P : GuildData → Prop) es w :
  (∀ b d, P d → P (set_dict_enabled b d)) →
  (∀ c d, P d → P (set_dict_cooldown c d)) →
  (∀ t r a d, P d → trigger_used (str_lower t) (messages d) = false →
              (length (messages d) < 20)%nat → P (sql_insert (str_lower t) r a d)) →
  (∀ id d, P d → P (sql_delete id d)) →
  (∀ g, P (guild_data w g)) →
  ∀ g, P (guild_data (run str_lower es w) g).
Proof.
  intros Hen Hcd Hins Hdel. revert w.
  induction es as [|e es IH]; intros w Hw; simpl; [done|].
  apply IH. by apply handle_keeps.
Qed.

(** Every state the cog can reach from start-up has at most 20 rows per
    guild, whatever [str_lower] is. *)
Lemma reachable_at_most_20 es fs g :
  (length (messages (guild_data (run str_lower es (init fs)) g)) ≤ 20)%nat.
Proof.
  apply (run_keeps (λ d, (length (messages d) ≤ 20)%nat)); try done.
  - intros t r a d Hd _ Hlen. simpl. rewrite length_app. simpl. lia.
  - intros id d Hd. simpl. etrans; [apply length_filter | done].
  - intros g'. unfold guild_data. simpl. rewrite lookup_empty. simpl. lia.
Qed.

End Invariant.

(** ** The listener answers the first match *)

Section Answers.

Variables (now now' : Q) (m : Message) (g : Z) (w : World).
Hypothesis Hguild : msg_guild m = Some g.
Hypothesis Hhuman : msg_author_bot m = false.
Hypothesis Hstore : healthy w.
Hypothesis Henabled : enabled (guild_data w g) = true.

Lemma snoc_neq {A} (l : list A) x : l ++ [x] ≠ l.
Proof. intros H. apply (f_equal length) in H. rewrite length_app in H. simpl in H. lia. Qed.

(** Past the cooldown test, the first match is answered and the time
    stored. *)
Lemma on_message_answers r :
  cooling_down (last_response w g (msg_author m)) (cooldown (guild_data w g)) now
    = false →
  first_match (msg_content m) (messages (guild_data w g)) = Some r →
  let w' := after (on_message now now' m w) in
  result (on_message now now' m w) = Returned tt
  ∧ sent w' = sent w ++ [(msg_channel m, row_response r)]
  ∧ last_response w' g (msg_author m) = now'
  ∧ (∀ g' u', (g', u') ≠ (g, msg_author m) →
              last_response w' g' u' = last_response w g' u')
  ∧ db w' = db w.
Proof.
  intros Hcool Hfirst. cbv zeta.
  rewrite (on_message_healthy now now' m g w) by done. cbv zeta.
  rewrite Hcool, Hfirst.
  unfold result, after. simpl fst. simpl snd.
  pose proof (quiet_touched g (msg_author m) w) as (Hdb & Hsent & Hlast).
  split; [done|]. split; [by rewrite sent_answered, Hsent|].
  split; [|split].
  - rewrite last_response_answered. by rewrite decide_True.
  - intros g' u' Hne. rewrite last_response_answered.
    rewrite decide_False; [apply Hlast|]. intros [-> ->]. by apply Hne.
  - by rewrite db_answered.
Qed.

(** When some stored trigger is in the content, a response is sent exactly
    when the cooldown test lets the message through. *)
Lemma on_message_emits_iff r :
  r ∈ messages (guild_data w g) →
  str_in (row_trigger r) (msg_content m) = true →
  sent (after (on_message now now' m w)) ≠ sent w
  ↔ cooling_down (last_response w g (msg_author m)) (cooldown (guild_data w g)) now = false.
Proof.
  intros Hr Hhit. rewrite (on_message_healthy now now' m g w) by done. cbv zeta.
  pose proof (quiet_touched g (msg_author m) w) as (_ & Hsent & _).
  destruct (cooling_down _ _ _).
  - unfold after. simpl. rewrite Hsent. split; [done | discriminate].
  - destruct (first_match_is_Some _ _ r Hr Hhit) as [r1 ->].
    unfold after. simpl. rewrite Hsent. split; [done|]. intros _. apply snoc_neq.
Qed.

End Answers.

(** ** Floats and the cooldown test *)

Section Floats.

Lemma half_even_bounds a u : 0 < u → a / u ≤ half_even a u ≤ a / u + 1.
Proof. intros Hu. unfold half_even. repeat case_match; lia. Qed.

Lemma half_even_mono a b u : 0 < u → a ≤ b → half_even a u ≤ half_even b u.
Proof.
  intros Hu Hab.
  pose proof (Z.div_le_mono a b u Hu Hab) as Hq.
  destruct (Z.eq_dec (a / u) (b / u)) as [Heq|Hne].
  - pose proof (Z.div_mod a u ltac:(lia)) as Ha.
    pose proof (Z.div_mod b u ltac:(lia)) as Hb.
    unfold half_even. rewrite <- Heq in *.
    destruct (Z.ltb_spec (2 * (a mod u)) u), (Z.ltb_spec (2 * (b mod u)) u),
      (Z.ltb_spec u (2 * (a mod u))), (Z.ltb_spec u (2 * (b mod u)));
      destruct (Z.even (a / u)); lia.
  - pose proof (half_even_bounds a u Hu). pose proof (half_even_bounds b u Hu). lia.
Qed.

Lemma ulp_exp_nonneg a : 0 ≤ ulp_exp a.
Proof. unfold ulp_exp. lia. Qed.

Lemma ulp_exp_mono a b : a ≤ b → ulp_exp a ≤ ulp_exp b.
Proof. intros H. unfold ulp_exp. pose proof (Z.log2_le_mono a b H). lia. Qed.

Lemma round_nat_nonneg a : 0 ≤ a → 0 ≤ round_nat a.
Proof.
  intros Ha. unfold round_nat.
  assert (0 < 2 ^ ulp_exp a) as Hu by (apply Z.pow_pos_nonneg; [lia | apply ulp_exp_nonneg]).
  pose proof (half_even_bounds a _ Hu). pose proof (Z.div_pos a _ Ha Hu). nia.
Qed.

Lemma round_nat_mono a b : 0 ≤ a → a ≤ b → round_nat a ≤ round_nat b.
Proof.
  intros Ha Hab. unfold round_nat.
  pose proof (ulp_exp_mono a b Hab) as He.
  pose proof (ulp_exp_nonneg a) as Hea.
  assert (0 < 2 ^ ulp_exp a) as Hua by (apply Z.pow_pos_nonneg; lia).
  assert (0 < 2 ^ ulp_exp b) as Hub by (apply Z.pow_pos_nonneg; lia).
  destruct (Z.eq_dec (ulp_exp a) (ulp_exp b)) as [Heq|Hne].
  - rewrite Heq in *. apply Z.mul_le_mono_nonneg_r; [lia|]. by apply half_even_mono.
  - assert (ulp_exp a + 1 ≤ ulp_exp b) as Hlt by lia.
    (* a is below 2^(ea+53), b is at least 2^(eb+52) *)
    assert (a < 2 ^ (ulp_exp a + 53)) as Ha_up.
    { destruct (Z.eq_dec a 0) as [->|Hnz]; [apply Z.pow_pos_nonneg; lia|].
      destruct (Z.log2_spec a ltac:(lia)) as [_ Hup].
      eapply Z.lt_le_trans; [exact Hup|]. apply Z.pow_le_mono_r; [lia|].
      unfold ulp_exp. lia. }
    assert (2 ^ (ulp_exp b + 52) ≤ b) as Hb_low.
    { assert (ulp_exp b = Z.log2 b - 52) as Heb by (unfold ulp_exp in *; lia).
      assert (0 < b) as Hbpos.
      { destruct (Z.le_gt_cases b 0) as [Hb0|]; [|done].
        rewrite (Z.log2_nonpos b Hb0) in Heb. lia. }
      destruct (Z.log2_spec b Hbpos) as [Hlow _].
      replace (ulp_exp b + 52) with (Z.log2 b) by lia. done. }
    rewrite Z.pow_add_r in Ha_up, Hb_low by lia.
    assert (a / 2 ^ ulp_exp a < 2 ^ 53) as Hqa
      by (apply Z.div_lt_upper_bound; lia).
    assert (2 ^ 52 ≤ b / 2 ^ ulp_exp b) as Hqb
      by (apply Z.div_le_lower_bound; lia).
    pose proof (half_even_bounds a _ Hua) as Hha.
    pose proof (half_even_bounds b _ Hub) as Hhb.
    assert (2 ^ ulp_exp a * 2 ≤ 2 ^ ulp_exp b) as Hpow.
    { replace (2 ^ ulp_exp a * 2) with (2 ^ (ulp_exp a + 1)) by (rewrite Z.pow_add_r; lia).
      apply Z.pow_le_mono_r; lia. }
    change (2 ^ 53) with (2 ^ 52 * 2) in *.
    set (ua := 2 ^ ulp_exp a) in *. set (ub := 2 ^ ulp_exp b) in *.
    set (p := 2 ^ 52) in *. assert (0 < p) by done.
    transitivity (p * 2 * ua); [nia|]. transitivity (p * ub); nia.
Qed.

Lemma round_nat_0 : round_nat 0 = 0.
Proof. reflexivity. Qed.

Lemma round_units_mono N M : N ≤ M → round_units N ≤ round_units M.
Proof.
  intros H. unfold round_units.
  destruct (Z.lt_trichotomy N 0) as [HN|[->|HN]], (Z.lt_trichotomy M 0) as [HM|[->|HM]];
    try lia;
    rewrite ?(Z.sgn_neg N), ?(Z.sgn_neg M), ?(Z.sgn_pos N), ?(Z.sgn_pos M) by lia;
    simpl Z.sgn; simpl Z.abs; rewrite ?round_nat_0.
  - pose proof (round_nat_mono (Z.abs M) (Z.abs N) ltac:(lia) ltac:(lia)). lia.
  - pose proof (round_nat_nonneg (Z.abs N) ltac:(lia)). lia.
  - pose proof (round_nat_nonneg (Z.abs N) ltac:(lia)).
    pose proof (round_nat_nonneg (Z.abs M) ltac:(lia)). lia.
  - pose proof (round_nat_nonneg (Z.abs M) ltac:(lia)). lia.
  - pose proof (round_nat_mono (Z.abs N) (Z.abs M) ltac:(lia) ltac:(lia)). lia.
Qed.

Lemma round_units_0 : round_units 0 = 0.
Proof. reflexivity. Qed.

Lemma of_units_to_units q N : to_units q = Some N → (of_units N == q)%Q.
Proof.
  unfold to_units, of_units. destruct q as [n d]. simpl.
  destruct (Z.eqb_spec ((n * Z.pos float_unit) mod Z.pos d) 0) as [Hmod|]; [|done].
  intros [= <-]. unfold Qeq. simpl.
  pose proof (Z.div_mod (n * Z.pos float_unit) (Z.pos d) ltac:(lia)) as H.
  rewrite Hmod in H. lia.
Qed.

Lemma of_units_le N M : N ≤ M → (of_units N <= of_units M)%Q.
Proof. intros H. unfold of_units, Qle. simpl. nia. Qed.

Lemma is_float_units_fixed N : is_float_units N = true → round_units N = N.
Proof. unfold is_float_units. intros H. apply andb_true_iff in H as [H _]. lia. Qed.


Lemma to_units_inject_Z n : to_units (inject_Z n) = Some (n * Z.pos float_unit).
Proof.
  unfold to_units. simpl. rewrite Z.mod_1_r, Z.div_1_r. done.
Qed.

(** The sum is never below the float it starts from. *)
Lemma python_add_ge last cd : 0 ≤ cd → (last <= python_add last cd)%Q.
Proof.
  intros Hcd. unfold python_add.
  assert (0 <= inject_Z cd)%Q as Hq by (change 0%Q with (inject_Z 0); by rewrite <- Zle_Qle).
  destruct (Qeq_bool last 0) eqn:E0.
  { apply Qeq_bool_iff in E0. lra. }
  destruct (to_units last) as [N|] eqn:EN; [|lra].
  destruct (is_float_units N) eqn:EF; [|lra].
  rewrite <- (of_units_to_units last N EN) at 1. apply of_units_le.
  rewrite <- (is_float_units_fixed N EF) at 1. apply round_units_mono.
  pose proof (round_units_mono 0 (cd * Z.pos float_unit) ltac:(lia)) as H.
  rewrite round_units_0 in H. lia.
Qed.

(** Adding the cooldown 0 changes nothing. *)
Lemma python_add_0 last : (python_add last 0 == last)%Q.
Proof.
  unfold python_add.
  destruct (Qeq_bool last 0) eqn:E0.
  { apply Qeq_bool_iff in E0. by rewrite E0. }
  change (inject_Z 0) with 0%Q.
  destruct (to_units last) as [N|] eqn:EN; [|lra].
  destruct (is_float_units N) eqn:EF; [|lra].
  replace (0 * Z.pos float_unit) with 0 by lia.
  rewrite round_units_0, Z.add_0_r, (is_float_units_fixed N EF).
  by apply of_units_to_units.
Qed.

(** The sum is exact when the stored time, the cooldown and their exact sum
    are floats. *)
Lemma python_add_exact last cd :
  is_float last = true →
  is_float (inject_Z cd) = true →
  is_float (last + inject_Z cd) = true →
  (python_add last cd == last + inject_Z cd)%Q.
Proof.
  unfold is_float, python_add. intros Hl Hc Hs.
  destruct (Qeq_bool last 0) eqn:E0.
  { apply Qeq_bool_iff in E0. lra. }
  destruct (to_units last) as [N|] eqn:EN; [|done]. rewrite Hl.
  rewrite to_units_inject_Z in Hc. rewrite (is_float_units_fixed _ Hc).
  destruct (to_units (last + inject_Z cd)) as [M|] eqn:EM; [|done].
  pose proof (of_units_to_units _ _ EM) as HM.
  pose proof (of_units_to_units _ _ EN) as HN.
  assert (M = N + cd * Z.pos float_unit) as <-.
  { rewrite <- HN in HM. unfold of_units, Qeq in HM. simpl in HM.
    assert (0 < Z.pos float_unit) by done. nia. }
  by rewrite (is_float_units_fixed M Hs).
Qed.

Lemma cooling_down_false last cd now :
  cooling_down last cd now = false ↔ (python_add last cd <= now)%Q.
Proof. unfold cooling_down. by rewrite negb_false_iff, Qle_bool_iff. Qed.


End Floats.

(** ** Claims about the listener *)

(** C1. [on_message] sends at most one message, whatever the state and the
    message.  In a guild where the feature is enabled, for a human author
    whose cooldown has elapsed and with the store answering, it scans the rows
    in ascending id order: when [r] is the row of least id whose trigger is a
    substring of the content, exactly one message is sent, the response of
    [r]; the time read after the send is stored for (guild, author), no other
    last-response time changes, and the scan stops there. *)
Theorem on_message_first_match :
  (∀ now now' m w,
     ∃ out, sent (after (on_message now now' m w)) = sent w ++ out
            ∧ (length out ≤ 1)%nat)
  ∧ (∀ now now' m g w r,
       msg_guild m = Some g →
       msg_author_bot m = false →
       healthy w →
       enabled (guild_data w g) = true →
       cooling_down (last_response w g (msg_author m)) (cooldown (guild_data w g)) now
         = false →
       ids_ascending (messages (guild_data w g)) →
       r ∈ messages (guild_data w g) →
       str_in (row_trigger r) (msg_content m) = true →
       (∀ r', r' ∈ messages (guild_data w g) →
              str_in (row_trigger r') (msg_content m) = true → row_id r ≤ row_id r') →
       let w' := after (on_message now now' m w) in
       result (on_message now now' m w) = Returned tt
       ∧ sent w' = sent w ++ [(msg_channel m, row_response r)]
       ∧ last_response w' g (msg_author m) = now'
       ∧ (∀ g' u', (g', u') ≠ (g, msg_author m) →
                   last_response w' g' u' = last_response w g' u')
       ∧ db w' = db w).
Proof.
  split.
  - intros now now' m w.
    destruct (on_message_outcome now now' m w)
      as [(_ & Hsent & _)|(g & r & w1 & _ & _ & (_ & Hsent & _) & _ & E)].
    + exists []. rewrite app_nil_r. split; [done | simpl; lia].
    + exists [(msg_channel m, row_response r)]. rewrite E. unfold after. simpl snd.
      rewrite sent_answered, Hsent. split; [done | simpl; lia].
  - intros now now' m g w r Hg Hbot Hw Hen Hcool Hasc Hr Hhit Hleast.
    apply on_message_answers; try done.
    by apply first_match_of_least.
Qed.

Lemma on_message_first_match_witness :
  let w := Scenario.greetings in
  let w' := after (on_message 1762000000 1762000001
                     (Scenario.says 10 "gm, good morning") w) in
  sent w' = [(3, "good morning"%string)] ∧ last_response w' 1 10 = 1762000001%Q.
Proof.
  pose (r := {| row_id := 1; row_trigger := "gm"; row_response := "good morning";
                row_author_id := 7 |}).
  destruct (proj2 on_message_first_match 1762000000%Q 1762000001%Q
              (Scenario.says 10 "gm, good morning") 1 Scenario.greetings r)
    as (_ & Hsent & Hlast & _).
  - reflexivity.
  - reflexivity.
  - reflexivity.
  - reflexivity.
  - reflexivity.
  - vm_compute. repeat constructor.
  - vm_compute. apply list_elem_of_here.
  - reflexivity.
  - intros r' Hr' _. vm_compute in Hr'.
    apply elem_of_cons in Hr' as [->|Hr']; [simpl; lia|].
    apply list_elem_of_singleton in Hr' as ->. simpl. lia.
  - split; [exact Hsent | exact Hlast].
Defined.

(** C2, as first stated: eligibility would be decided by the exact threshold
    [now - last >= cooldown].  With the float 0.1 stored as last-response
    time, the cooldown 5 and the clock at the float 5.1, the sum 0.1 + 5 is
    rounded to 5.1, the test 5.1 > 5.1 fails and the member is answered,
    though [now - last] is below 5. *)
Lemma threshold_not_exact :
  let w := Scenario.answered_at_tenth in
  let last := 3602879701896397 # 36028797018963968 in
  let now := 2871044762448691 # 562949953421312 in
  guild_cds w 1 !! 10 = Some last
  ∧ cooldown (guild_data w 1) = 5
  ∧ is_float last = true
  ∧ is_float now = true
  ∧ ¬ (inject_Z 5 <= now - last)%Q
  ∧ sent (after (on_message now now (Scenario.says 10 "gm") w)) ≠ sent w.
Proof.
  cbv zeta. split; [vm_compute; reflexivity|]. split; [vm_compute; reflexivity|].
  split; [vm_compute; reflexivity|]. split; [vm_compute; reflexivity|].
  split.
  - vm_compute. intros H. by apply H.
  - vm_compute. discriminate.
Qed.

(** C2, amended. For a (guild, user) pair with a recorded last-response time
    [last], a message containing a stored trigger is answered exactly when
    [now >= last + cooldown], the sum being rounded to the nearest float as
    Python rounds it.  This is the exact threshold [now - last >= cooldown]
    whenever [last], the cooldown and their exact sum are floats, as they
    are with a cooldown of 5 and a last response at 0. *)
Theorem cooldown_threshold now now' m g w last r :
  msg_guild m = Some g →
  msg_author_bot m = false →
  healthy w →
  enabled (guild_data w g) = true →
  guild_cds w g !! msg_author m = Some last →
  r ∈ messages (guild_data w g) →
  str_in (row_trigger r) (msg_content m) = true →
  (sent (after (on_message now now' m w)) ≠ sent w
   ↔ (python_add last (cooldown (guild_data w g)) <= now)%Q)
  ∧ (is_float last = true
     ∧ is_float (inject_Z (cooldown (guild_data w g))) = true
     ∧ is_float (last + inject_Z (cooldown (guild_data w g))) = true →
     sent (after (on_message now now' m w)) ≠ sent w
     ↔ (inject_Z (cooldown (guild_data w g)) <= now - last)%Q).
Proof.
  intros Hg Hbot Hw Hen Hlast Hr Hhit.
  assert (sent (after (on_message now now' m w)) ≠ sent w
          ↔ (python_add last (cooldown (guild_data w g)) <= now)%Q) as Hiff.
  { rewrite (on_message_emits_iff now now' m g w Hg Hbot Hw Hen r Hr Hhit).
    unfold last_response. rewrite Hlast. apply cooling_down_false. }
  split; [done|]. intros (Hl & Hc & Hs). rewrite Hiff.
  rewrite (python_add_exact _ _ Hl Hc Hs).
  split; intros H; lra.
Qed.

(** With a cooldown of 5 seconds and a last response at time 0: no answer at
    4.999 (the float 5628373634306277 / 2^50), an answer at 5. *)
Lemma cooldown_threshold_witness :
  let w := Scenario.answered_at_0 in
  cooldown (guild_data w 1) = 5
  ∧ sent w = [(3, "good morning"%string)]
  ∧ guild_cds w 1 !! 10 = Some 0%Q
  ∧ sent (after (on_message (5628373634306277 # 1125899906842624)
                   (5628373634306277 # 1125899906842624) (Scenario.says 10 "gm") w))
    = sent w
  ∧ sent (after (on_message 5 5 (Scenario.says 10 "gm") w)) ≠ sent w.
Proof.
  pose (r := {| row_id := 1; row_trigger := "gm"; row_response := "good morning";
                row_author_id := 7 |}).
  split; [reflexivity|]. split; [reflexivity|]. split; [reflexivity|]. split.
  - destruct (decide (sent (after (on_message (5628373634306277 # 1125899906842624)
                (5628373634306277 # 1125899906842624)
                (Scenario.says 10 "gm") Scenario.answered_at_0))
              = sent Scenario.answered_at_0)) as [E|N]; [exact E|].
    exfalso.
    apply (proj2 (cooldown_threshold (5628373634306277 # 1125899906842624)
                    (5628373634306277 # 1125899906842624) (Scenario.says 10 "gm") 1
                    Scenario.answered_at_0 0%Q r eq_refl eq_refl eq_refl eq_refl eq_refl
                    ltac:(vm_compute; apply list_elem_of_here) eq_refl)) in N.
    + vm_compute in N. by apply N.
    + vm_compute. done.
  - apply (proj2 (cooldown_threshold 5 5 (Scenario.says 10 "gm") 1
                    Scenario.answered_at_0 0%Q r eq_refl eq_refl eq_refl eq_refl eq_refl
                    ltac:(vm_compute; apply list_elem_of_here) eq_refl)).
    + vm_compute. done.
    + vm_compute. discriminate.
Defined.




(** C7. When no stored trigger is in the content, [on_message] sends nothing
    and the last-response time of every (guild, user) pair is what it was
    (the [setdefault] calls may create the author's entry with 0, the value
    an absent entry already reads as); the store is not written either. *)
Theorem on_message_no_match now now' m w :
  (∀ g r, msg_guild m = Some g → r ∈ messages (guild_data w g) →
          str_in (row_trigger r) (msg_content m) = false) →
  let w' := after (on_message now now' m w) in
  sent w' = sent w
  ∧ (∀ g u, last_response w' g u = last_response w g u)
  ∧ db w' = db w.
Proof.
  intros Hno. cbv zeta.
  destruct (on_message_outcome now now' m w)
    as [(Hdb & Hsent & Hlast)|(g & r & w1 & Hg & _ & _ & Hfirst & _)]; [done|].
  apply first_match_Some in Hfirst as [Hr Hhit].
  specialize (Hno g r Hg Hr). congruence.
Qed.

Lemma on_message_no_match_witness :
  let w := Scenario.greetings in
  let w' := after (on_message 1762000000 1762000001 (Scenario.says 10 "hello there") w) in
  sent w' = sent w ∧ last_response w' 1 10 = last_response w 1 10.
Proof.
  destruct (on_message_no_match 1762000000 1762000001
              (Scenario.says 10 "hello there") Scenario.greetings) as (Hsent & Hlast & _).
  - intros g r [= <-] Hr. vm_compute in Hr.
    apply elem_of_cons in Hr as [->|Hr]; [reflexivity|].
    apply list_elem_of_singleton in Hr as ->. reflexivity.
  - split; [exact Hsent | apply Hlast].
Defined.

(** C9, as first stated: a store failure during message handling would not
    leave [on_message] as a failure.  When the [get_messages] of the listener
    fails, [on_message] ends by raising [StoreUnavailable]. *)
Lemma store_failure_propagates :
  let m := Scenario.says 10 "gm" in
  let outcome := on_message 1762000000 1762000001 m Scenario.outage in
  result outcome = Raised StoreUnavailable ∧ result outcome ≠ Returned tt.
Proof. split; [reflexivity | discriminate]. Qed.

(** C9, amended. [on_message] has no handler: when one of its store
    operations fails ([is_enabled]; [get_guild_cooldown] in an enabled guild;
    [get_messages] once the cooldown test is passed), it raises
    [StoreUnavailable] to its caller, having sent nothing, changed no
    last-response time and written nothing to the store. *)
Theorem on_message_store_failure now now' m g w :
  msg_guild m = Some g →
  msg_author_bot m = false →
  (∃ fs, faults w = true :: fs)
  ∨ ((∃ fs, faults w = false :: true :: fs) ∧ enabled (guild_data w g) = true)
  ∨ ((∃ fs, faults w = false :: false :: true :: fs)
     ∧ enabled (guild_data w g) = true
     ∧ cooling_down (last_response w g (msg_author m)) (cooldown (guild_data w g)) now
       = false) →
  let w' := after (on_message now now' m w) in
  result (on_message now now' m w) = Raised StoreUnavailable
  ∧ sent w' = sent w
  ∧ (∀ g' u', last_response w' g' u' = last_response w g' u')
  ∧ db w' = db w.
Proof.
  intros Hg Hbot Hfail. cbv zeta.
  assert (result (on_message now now' m w) = Raised StoreUnavailable) as Hres.
  { unfold on_message. rewrite Hg, Hbot.
    unfold bind, is_enabled, get_guild_cooldown, get_messages, bind.
    destruct Hfail as [[fs Hf]|[[[fs Hf] Hen]|([fs Hf] & Hen & Hcool)]].
    - by rewrite (store_read_fails g enabled w fs Hf).
    - rewrite (store_read_passes g enabled w _ Hf), Hen. cbn [negb].
      apply faults_set_faults_tail in Hf.
      by rewrite (store_read_fails g cooldown _ fs Hf).
    - rewrite (store_read_passes g enabled w _ Hf), Hen. cbn [negb].
      apply faults_set_faults_tail in Hf.
      rewrite (store_read_passes g cooldown _ _ Hf).
      apply faults_set_faults_tail in Hf.
      rewrite cooldowns_setdefault_returns, setdefaults_return.
      change (last_response (set_faults tail (set_faults tail w)) g (msg_author m))
        with (last_response w g (msg_author m)).
      change (guild_data (set_faults tail w) g) with (guild_data w g).
      rewrite Hcool.
      rewrite <- (faults_touched g (msg_author m)) in Hf.
      by rewrite (store_read_fails g messages _ fs Hf). }
  split; [done|].
  destruct (on_message_outcome now now' m w)
    as [(Hdb & Hsent & Hlast)|(g1 & r & w1 & _ & _ & _ & _ & E)]; [done|].
  rewrite E in Hres. discriminate.
Qed.

Lemma on_message_store_failure_witness :
  let m := Scenario.says 10 "gm" in
  let w' := after (on_message 1762000000 1762000001 m Scenario.outage) in
  result (on_message 1762000000 1762000001 m Scenario.outage) = Raised StoreUnavailable
  ∧ sent w' = sent Scenario.outage.
Proof.
  destruct (on_message_store_failure 1762000000 1762000001 (Scenario.says 10 "gm") 1
              Scenario.outage) as (Hres & Hsent & _).
  - reflexivity.
  - reflexivity.
  - right. right. split; [by exists [] |]. split; reflexivity.
  - split; [exact Hres | exact Hsent].
Defined.

(** ** Claims about the commands *)

Section Commands.

Variable str_lower : string → string.

Lemma trig_add_healthy i g t resp w :
  int_guild i = Some g → healthy w →
  trig_add str_lower i t resp w =
    let msgs := messages (guild_data w g) in
    if trigger_used (str_lower t) msgs then (Returned DuplicateTrigger, w)
    else if (Z.of_nat (length msgs) >=? 20)%Z then (Returned LimitExceeded, w)
    else (Returned Success,
          set_db (insert g (sql_insert (str_lower t) resp (int_user i) (guild_data w g))) w).
Proof.
  intros Hg Hw. unfold trig_add. rewrite Hg. unfold bind.
  rewrite get_messages_healthy by done. cbv zeta.
  destruct (trigger_used _ _); [done|].
  destruct (_ >=? _)%Z; [done|].
  unfold add_message. by rewrite store_write_healthy.
Qed.

Lemma trig_remove_healthy i g id w :
  int_guild i = Some g → healthy w →
  trig_remove i id w =
    (Returned Success, set_db (insert g (sql_delete id (guild_data w g))) w).
Proof.
  intros Hg Hw. unfold trig_remove. rewrite Hg. unfold bind, remove_message.
  by rewrite store_write_healthy.
Qed.

Lemma filter_all {A} (P : A → Prop) `{∀ x, Decision (P x)} (l : list A) :
  (∀ x, x ∈ l → P x) → filter P l = l.
Proof.
  induction l as [|x l IH]; intros Hl; [done|].
  rewrite filter_cons_True by (apply Hl, list_elem_of_here).
  f_equal. apply IH. intros y Hy. by apply Hl, list_elem_of_further.
Qed.

End Commands.

(** C3, as first stated: with 20 rows every further add would answer
    [LimitExceeded].  On the full table, adding a trigger that is already
    there answers [DuplicateTrigger]. *)
Lemma full_table_duplicate_first :
  let w := Scenario.full in
  length (messages (guild_data w 1)) = 20%nat
  ∧ result (trig_add lower Scenario.operator "A" "again" w) = Returned DuplicateTrigger
  ∧ result (trig_add lower Scenario.operator "A" "again" w) ≠ Returned LimitExceeded.
Proof. vm_compute. split; [reflexivity|]. split; [reflexivity | discriminate]. Qed.

(** C3, amended. In every state the cog reaches from start-up a guild has at
    most 20 rows; when it has 20 and the store answers, every further add
    fails and leaves the state as it is: with [DuplicateTrigger] when the
    lower-cased trigger is already stored, with [LimitExceeded] otherwise.
    This holds whatever function [str.lower] is. *)
Theorem trig_add_limit str_lower es fs g :
  let w := run str_lower es (init fs) in
  (length (messages (guild_data w g)) ≤ 20)%nat
  ∧ ∀ i t resp,
      int_guild i = Some g →
      healthy w →
      length (messages (guild_data w g)) = 20%nat →
      result (trig_add str_lower i t resp w) =
        Returned (if trigger_used (str_lower t) (messages (guild_data w g))
                  then DuplicateTrigger else LimitExceeded)
      ∧ after (trig_add str_lower i t resp w) = w.
Proof.
  cbv zeta. split; [apply reachable_at_most_20|].
  intros i t resp Hg Hw Hlen. rewrite (trig_add_healthy str_lower i g) by done. cbv zeta.
  rewrite Hlen. by destruct (trigger_used _ _).
Qed.

Lemma trig_add_limit_witness :
  let w := Scenario.full in
  result (trig_add lower Scenario.operator "one more" "no" w) = Returned LimitExceeded
  ∧ after (trig_add lower Scenario.operator "one more" "no" w) = w.
Proof.
  apply (proj2 (trig_add_limit lower
                  (map (λ t, TrigAdd Scenario.operator t "ok")
                     ["a"; "b"; "c"; "d"; "e"; "f"; "g"; "h"; "i"; "j";
                      "k"; "l"; "m"; "n"; "o"; "p"; "q"; "r"; "s"; "t"]%string)
                  [] 1) Scenario.operator "one more"%string "no"%string).
  - reflexivity.
  - vm_compute. reflexivity.
  - vm_compute. reflexivity.
Defined.

(** C4. [trig_add] lower-cases the new trigger before it compares, and the
    comparison comes before the test of the limit.  With the store answering,
    adding a trigger whose lower case is the trigger of a stored row answers
    [DuplicateTrigger] and leaves the state as it is, however many rows the
    guild has.  In every state the cog reaches from start-up the stored
    triggers are lower-cased ([str.lower] applied twice being [str.lower]),
    so this is so for every trigger that equals the trigger of a stored row
    up to case. *)
Theorem trig_add_duplicate str_lower :
  (∀ i g t resp w r0,
     int_guild i = Some g →
     healthy w →
     r0 ∈ messages (guild_data w g) →
     str_lower t = row_trigger r0 →
     result (trig_add str_lower i t resp w) = Returned DuplicateTrigger
     ∧ after (trig_add str_lower i t resp w) = w)
  ∧ ((∀ s, str_lower (str_lower s) = str_lower s) →
     ∀ es fs i g t resp r0,
       let w := run str_lower es (init fs) in
       int_guild i = Some g →
       healthy w →
       r0 ∈ messages (guild_data w g) →
       str_lower t = str_lower (row_trigger r0) →
       result (trig_add str_lower i t resp w) = Returned DuplicateTrigger
       ∧ after (trig_add str_lower i t resp w) = w).
Proof.
  assert (∀ i g t resp w r0,
            int_guild i = Some g → healthy w → r0 ∈ messages (guild_data w g) →
            str_lower t = row_trigger r0 →
            result (trig_add str_lower i t resp w) = Returned DuplicateTrigger
            ∧ after (trig_add str_lower i t resp w) = w) as Hstored.
  { intros i g t resp w r0 Hg Hw Hr Heq.
    rewrite (trig_add_healthy str_lower i g) by done. cbv zeta.
    assert (trigger_used (str_lower t) (messages (guild_data w g)) = true) as ->; [|done].
    apply trigger_used_spec. by exists r0. }
  split; [exact Hstored|].
  intros Hidem es fs i g t resp r0. cbv zeta. intros Hg Hw Hr Heq.
  apply (Hstored i g t resp _ r0); try done.
  pose proof (ok_lowered _ _ (reachable_ok str_lower Hidem es fs g)) as Hlow.
  rewrite Forall_forall in Hlow. specialize (Hlow r0 Hr). congruence.
Qed.

(** Adding "hi" then "Hi": the second call answers [DuplicateTrigger]. *)
Lemma trig_add_duplicate_witness :
  messages (guild_data Scenario.hi 1) =
    [{| row_id := 1; row_trigger := "hi"; row_response := "hello"; row_author_id := 7 |}]
  ∧ result (trig_add lower Scenario.operator "Hi" "again" Scenario.hi)
    = Returned DuplicateTrigger
  ∧ after (trig_add lower Scenario.operator "Hi" "again" Scenario.hi) = Scenario.hi.
Proof.
  split; [reflexivity|].
  apply (proj2 (trig_add_duplicate lower) lower_idemp
           [TrigAdd Scenario.operator "hi" "hello"] []
           Scenario.operator 1 "Hi"%string "again"%string
           {| row_id := 1; row_trigger := "hi"; row_response := "hello";
              row_author_id := 7 |}).
  - reflexivity.
  - reflexivity.
  - vm_compute. apply list_elem_of_here.
  - reflexivity.
Defined.

(** C5. The code stores the trigger "Hello" as "hello" and looks for it in
    the content as it was written: a message "Hello" is not answered. *)
Lemma hello_exact_case_not_answered :
  let w := Scenario.hello in
  let w' := after (on_message 1762000000 1762000001 (Scenario.says 10 "Hello") w) in
  messages (guild_data w 1) =
    [{| row_id := 1; row_trigger := "hello"; row_response := "hi there";
        row_author_id := 7 |}]
  ∧ str_in "hello" "Hello" = false
  ∧ sent w' = [].
Proof. repeat split; reflexivity. Qed.

(** C8. With the store answering, [trig_remove] always answers with its
    success message.  When no row has the id, the rows of the guild are the
    same list afterwards; when the row [r] has it (ids being in ascending
    order, hence distinct), the rows afterwards are the rows before with [r]
    taken out.  The settings, the id counter and the other guilds are not
    changed. *)
Theorem trig_remove_spec i g id w :
  int_guild i = Some g →
  healthy w →
  let w' := after (trig_remove i id w) in
  let rows := messages (guild_data w g) in
  let rows' := messages (guild_data w' g) in
  result (trig_remove i id w) = Returned Success
  ∧ ((∀ r, r ∈ rows → row_id r ≠ id) → rows' = rows)
  ∧ (∀ r, r ∈ rows → row_id r = id → ids_ascending rows →
          ∃ l1 l2, rows = l1 ++ r :: l2 ∧ rows' = l1 ++ l2)
  ∧ enabled (guild_data w' g) = enabled (guild_data w g)
  ∧ cooldown (guild_data w' g) = cooldown (guild_data w g)
  ∧ sqlite_sequence (guild_data w' g) = sqlite_sequence (guild_data w g)
  ∧ (∀ g', g' ≠ g → guild_data w' g' = guild_data w g').
Proof.
  intros Hg Hw. cbv zeta. rewrite (trig_remove_healthy i g) by done.
  unfold result, after. simpl fst. simpl snd.
  rewrite guild_data_insert, decide_True by done. simpl.
  split; [done|]. split; [|split; [|repeat split]].
  - intros Hno. by apply filter_all.
  - intros r Hr Hid Hasc.
    destruct (list_elem_of_split _ _ Hr) as (l1 & l2 & Hrows).
    exists l1, l2. split; [done|]. rewrite Hrows.
    rewrite filter_app, filter_cons_False by (intros H; by apply H).
    assert (∀ x, x ∈ l1 ++ l2 → row_id x ≠ id) as Hother.
    { intros x Hx Hxid.
      assert (x ∈ messages (guild_data w g)) as Hx'.
      { rewrite Hrows. apply elem_of_app in Hx as [Hx|Hx];
          apply elem_of_app; [by left | right; by apply list_elem_of_further]. }
      assert (x = r) as -> by (apply (ids_ascending_inj _ x r Hasc); [done..|lia]).
      unfold ids_ascending in Hasc. rewrite Hrows in Hasc.
      apply StronglySorted_app in Hasc as (H12 & _ & H2).
      apply StronglySorted_cons in H2 as [H2 _]. rewrite Forall_forall in H2.
      apply elem_of_app in Hx as [Hx|Hx].
      - specialize (H12 r r Hx (list_elem_of_here _ _)). lia.
      - specialize (H2 r Hx). lia. }
    f_equal; apply filter_all; intros x Hx; apply Hother, elem_of_app; auto.
  - intros g' Hne. rewrite guild_data_insert. by rewrite decide_False.
Qed.

(** Removing the id 9999, which was never issued, and then the id 1. *)
Lemma trig_remove_spec_witness :
  let w := Scenario.greetings in
  result (trig_remove Scenario.operator 9999 w) = Returned Success
  ∧ messages (guild_data (after (trig_remove Scenario.operator 9999 w)) 1)
    = messages (guild_data w 1)
  ∧ ∃ l1 l2,
      messages (guild_data w 1) =
        l1 ++ {| row_id := 1; row_trigger := "gm"; row_response := "good morning";
                 row_author_id := 7 |} :: l2
      ∧ messages (guild_data (after (trig_remove Scenario.operator 1 w)) 1) = l1 ++ l2.
Proof.
  destruct (trig_remove_spec Scenario.operator 1 9999 Scenario.greetings)
    as (Hres & Hsame & _).
  - reflexivity.
  - reflexivity.
  - split; [exact Hres|]. split.
    + apply Hsame.
      intros r Hr. vm_compute in Hr.
      apply elem_of_cons in Hr as [->|Hr]; [discriminate|].
      apply list_elem_of_singleton in Hr as ->. discriminate.
    + destruct (trig_remove_spec Scenario.operator 1 1 Scenario.greetings)
        as (_ & _ & Hgone & _).
      * reflexivity.
      * reflexivity.
      * apply Hgone.
        -- vm_compute. apply list_elem_of_here.
        -- reflexivity.
        -- vm_compute. repeat constructor.
Defined.

(** C10, as first stated: once a row with an empty trigger exists, every
    message let through would get that row's response.  With "gm" stored
    before the empty trigger, the message "gm" gets the response of "gm". *)
Lemma empty_trigger_not_always_its_response :
  let w := Scenario.catch_all in
  let w' := after (on_message 1762000000 1762000001 (Scenario.says 10 "gm") w) in
  messages (guild_data w 1) =
    [{| row_id := 1; row_trigger := "gm"; row_response := "good morning";
        row_author_id := 7 |};
     {| row_id := 2; row_trigger := ""; row_response := "always"; row_author_id := 7 |}]
  ∧ enabled (guild_data w 1) = true
  ∧ cooling_down (last_response w 1 10) (cooldown (guild_data w 1)) 1762000000 = false
  ∧ sent w' = [(3, "good morning"%string)]
  ∧ sent w' ≠ [(3, "always"%string)].
Proof. vm_compute. repeat split; discriminate. Qed.

(** C10, amended. [trig_add] accepts an empty trigger (when none is stored
    yet and the guild has fewer than 20 rows; the lower case of the empty
    string is the empty string).  Once a row [r0] with an empty trigger
    exists, every message of an enabled guild that passes the cooldown test
    is answered, with the response of the matching row of least id [r]: this
    is [r0] exactly when no row of smaller id matches, and otherwise a row
    before [r0]. *)
Theorem empty_trigger_catch_all :
  (∀ str_lower i g resp w,
     str_lower EmptyString = EmptyString →
     int_guild i = Some g →
     healthy w →
     trigger_used EmptyString (messages (guild_data w g)) = false →
     (length (messages (guild_data w g)) < 20)%nat →
     result (trig_add str_lower i EmptyString resp w) = Returned Success
     ∧ messages (guild_data (after (trig_add str_lower i EmptyString resp w)) g) =
         messages (guild_data w g) ++
           [{| row_id := sqlite_sequence (guild_data w g) + 1;
               row_trigger := EmptyString; row_response := resp;
               row_author_id := int_user i |}])
  ∧ (∀ now now' m g w r0,
       msg_guild m = Some g →
       msg_author_bot m = false →
       healthy w →
       enabled (guild_data w g) = true →
       cooling_down (last_response w g (msg_author m)) (cooldown (guild_data w g)) now
         = false →
       ids_ascending (messages (guild_data w g)) →
       r0 ∈ messages (guild_data w g) →
       row_trigger r0 = EmptyString →
       let w' := after (on_message now now' m w) in
       ∃ r, r ∈ messages (guild_data w g)
            ∧ str_in (row_trigger r) (msg_content m) = true
            ∧ (∀ r', r' ∈ messages (guild_data w g) →
                     str_in (row_trigger r') (msg_content m) = true →
                     row_id r ≤ row_id r')
            ∧ row_id r ≤ row_id r0
            ∧ sent w' = sent w ++ [(msg_channel m, row_response r)]
            ∧ last_response w' g (msg_author m) = now'
            ∧ (r = r0 ↔
               ∀ r', r' ∈ messages (guild_data w g) → row_id r' < row_id r0 →
                     str_in (row_trigger r') (msg_content m) = false)).
Proof.
  split.
  - intros str_lower i g resp w Hempty Hg Hw Hused Hlen.
    rewrite (trig_add_healthy str_lower i g) by done.
    cbv zeta. rewrite Hempty, Hused.
    destruct (Z.geb_spec (Z.of_nat (length (messages (guild_data w g)))) 20) as [?|_];
      [lia|].
    unfold result, after. simpl fst. simpl snd. split; [done|].
    rewrite guild_data_insert, decide_True by done. done.
  - intros now now' m g w r0 Hg Hbot Hw Hen Hcool Hasc Hr0 Hempty. cbv zeta.
    assert (str_in (row_trigger r0) (msg_content m) = true) as Hhit0.
    { rewrite Hempty. apply str_in_empty. }
    destruct (first_match_is_Some _ _ r0 Hr0 Hhit0) as [r Hfirst].
    destruct (first_match_Some _ _ _ Hfirst) as [Hr Hhit].
    pose proof (first_match_least _ _ _ Hasc Hfirst) as Hleast.
    destruct (on_message_answers now now' m g w Hg Hbot Hw Hen r Hcool Hfirst)
      as (_ & Hsent & Hlast & _).
    exists r. repeat split; try done.
    + by apply Hleast.
    + intros -> r' Hr' Hlt. apply not_true_iff_false. intros Hhit'.
      specialize (Hleast r' Hr' Hhit'). lia.
    + intros Hnone. apply (ids_ascending_inj _ r r0 Hasc Hr Hr0).
      pose proof (Hleast r0 Hr0 Hhit0).
      destruct (decide (row_id r < row_id r0)) as [Hlt|]; [|lia].
      specialize (Hnone r Hr Hlt). congruence.
Qed.

Lemma empty_trigger_catch_all_witness :
  let w := Scenario.catch_all in
  let w' := after (on_message 1762000000 1762000001 (Scenario.says 10 "anything") w) in
  result (trig_add lower Scenario.operator "" "always" Scenario.hi) = Returned Success
  ∧ ∃ r, row_id r ≤ 2 ∧ sent w' = sent w ++ [(3, row_response r)].
Proof.
  split.
  - apply (proj1 empty_trigger_catch_all lower Scenario.operator 1 "always"%string
             Scenario.hi).
    + reflexivity.
    + reflexivity.
    + reflexivity.
    + reflexivity.
    + vm_compute. lia.
  - destruct (proj2 empty_trigger_catch_all 1762000000%Q 1762000001%Q
                (Scenario.says 10 "anything") 1 Scenario.catch_all
                {| row_id := 2; row_trigger := ""; row_response := "always";
                   row_author_id := 7 |})
      as (r & _ & _ & _ & Hid & Hsent & _).
    + reflexivity.
    + reflexivity.
    + reflexivity.
    + reflexivity.
    + reflexivity.
    + vm_compute. repeat constructor.
    + vm_compute. apply list_elem_of_further, list_elem_of_here.
    + reflexivity.
    + exists r. split; [exact Hid | exact Hsent].
Defined.

(** * Further properties of the cog *)

(** ** What a command may change *)

Section Effects.

Variable str_lower : string → string.

Lemma store_write_step g f w :
  store_write g f w = (Raised StoreUnavailable, set_faults tail w)
  ∨ store_write g f w =
      (Returned tt, set_faults tail (set_db (insert g (f (guild_data w g))) w)).
Proof. unfold store_write. repeat case_match; auto. Qed.

Lemma wrote_store_write g f w : wrote g f w (after (store_write g f w)).
Proof.
  destruct (store_write_step g f w) as [E|E]; rewrite E; unfold wrote, after; simpl; auto.
Qed.

Lemma wrote_read g f w : wrote g f w (set_faults tail w).
Proof. unfold wrote. simpl. auto. Qed.

Lemma wrote_refl g f w : wrote g f w w.
Proof. unfold wrote. auto. Qed.

Lemma wrote_guild_data_ne g f w w' g' :
  wrote g f w w' → g' ≠ g → guild_data w' g' = guild_data w g'.
Proof.
  intros (_ & _ & [Hdb|Hdb]) Hne; unfold guild_data; rewrite Hdb; [done|].
  by rewrite lookup_insert_ne.
Qed.

Lemma wrote_guild_data g f w w' :
  wrote g f w w' →
  guild_data w' g = guild_data w g ∨ guild_data w' g = f (guild_data w g).
Proof.
  intros (_ & _ & [Hdb|Hdb]); unfold guild_data at 1 3; rewrite Hdb; [by left|].
  right. by rewrite lookup_insert_eq.
Qed.

Lemma wrote_last_response g f w w' g' u :
  wrote g f w w' → last_response w' g' u = last_response w g' u.
Proof. intros (_ & Hc & _). unfold last_response, guild_cds. by rewrite Hc. Qed.

Lemma config_enable_wrote i g b w :
  int_guild i = Some g → wrote g (set_dict_enabled b) w (after (config_enable i b w)).
Proof.
  intros Hg. unfold config_enable, set_enabled, bind. rewrite Hg.
  pose proof (wrote_store_write g (set_dict_enabled b) w) as H.
  by destruct (store_write g _ w) as [[[]|e] w'].
Qed.

Lemma config_cooldown_wrote i g c w :
  int_guild i = Some g →
  wrote g (set_dict_cooldown (Z.of_N c)) w (after (config_cooldown i c w)).
Proof.
  intros Hg. unfold config_cooldown, set_guild_cooldown, bind. rewrite Hg.
  pose proof (wrote_store_write g (set_dict_cooldown (Z.of_N c)) w) as H.
  by destruct (store_write g _ w) as [[[]|e] w'].
Qed.

Lemma trig_list_after i w :
  after (trig_list i w) = w ∨ after (trig_list i w) = set_faults tail w.
Proof.
  unfold trig_list, bind. destruct (int_guild i) as [g|]; [|by left].
  right. destruct (get_messages_step g w) as [E|E]; rewrite E; [|done].
  by destruct (messages _).
Qed.

Lemma trig_add_wrote i g t r w :
  int_guild i = Some g →
  wrote g (sql_insert (str_lower t) r (int_user i)) w (after (trig_add str_lower i t r w)).
Proof.
  intros Hg. unfold trig_add, add_message, bind. rewrite Hg.
  destruct (get_messages_step g w) as [E|E]; rewrite E; [|apply wrote_read].
  destruct (trigger_used _ _); [apply wrote_read|].
  destruct (_ >=? _)%Z; [apply wrote_read|].
  pose proof (wrote_store_write g (sql_insert (str_lower t) r (int_user i))
                (set_faults tail w)) as H.
  by destruct (store_write g _ _) as [[[]|e] w'].
Qed.

Lemma trig_remove_wrote i g id w :
  int_guild i = Some g → wrote g (sql_delete id) w (after (trig_remove i id w)).
Proof.
  intros Hg. unfold trig_remove, remove_message, bind. rewrite Hg.
  pose proof (wrote_store_write g (sql_delete id) w) as H.
  by destruct (store_write g _ w) as [[[]|e] w'].
Qed.

End Effects.

Section Frames.

Variable str_lower : string → string.

(** The storage unit of a guild after one event is the unit before, or the
    unit before with one setting written, one row inserted or one id
    deleted. *)
Lemma handle_guild_data e w g :
  let d := guild_data w g in
  let d' := guild_data (handle str_lower e w) g in
  d' = d
  ∨ (∃ b, d' = set_dict_enabled b d)
  ∨ (∃ c : N, d' = set_dict_cooldown (Z.of_N c) d)
  ∨ (∃ t r a, d' = sql_insert t r a d)
  ∨ (∃ id, d' = sql_delete id d).
Proof.
  cbv zeta.
  assert (∀ g0 f w', wrote g0 f w w' →
            guild_data w' g = guild_data w g ∨ guild_data w' g = f (guild_data w g))
    as Hw.
  { intros g0 f w' H. destruct (decide (g = g0)) as [->|Hne].
    - by apply wrote_guild_data.
    - left. by apply (wrote_guild_data_ne g0 f). }
  destruct e as [i b|i c|i|i t r|i id|now now' m]; simpl.
  - destruct (int_guild i) as [g0|] eqn:Hg.
    + destruct (Hw _ _ _ (config_enable_wrote i g0 b w Hg)) as [->| ->]; eauto.
    + unfold config_enable. rewrite Hg. by left.
  - destruct (int_guild i) as [g0|] eqn:Hg.
    + destruct (Hw _ _ _ (config_cooldown_wrote i g0 c w Hg)) as [->| ->]; eauto 6.
    + unfold config_cooldown. rewrite Hg. by left.
  - left. by destruct (trig_list_after i w) as [->| ->].
  - destruct (int_guild i) as [g0|] eqn:Hg.
    + destruct (Hw _ _ _ (trig_add_wrote str_lower i g0 t r w Hg)) as [->| ->]; eauto 8.
    + unfold trig_add. rewrite Hg. by left.
  - destruct (int_guild i) as [g0|] eqn:Hg.
    + destruct (Hw _ _ _ (trig_remove_wrote i g0 id w Hg)) as [->| ->]; eauto 8.
    + unfold trig_remove. rewrite Hg. by left.
  - left. unfold guild_data. by rewrite on_message_db.
Qed.

Lemma handle_fresh e w g :
  sqlite_sequence (guild_data w g) ≤ sqlite_sequence (guild_data (handle str_lower e w) g)
  ∧ ∀ r, r ∈ messages (guild_data (handle str_lower e w) g) →
         r ∈ messages (guild_data w g) ∨ sqlite_sequence (guild_data w g) < row_id r.
Proof.
  destruct (handle_guild_data e w g)
    as [->|[[b ->]|[[c ->]|[(t & r0 & a & ->)|[id ->]]]]]; simpl.
  - split; [lia | auto].
  - split; [lia | auto].
  - split; [lia | auto].
  - split; [lia|]. intros r Hr. apply elem_of_app in Hr as [Hr|Hr]; [by left|].
    apply list_elem_of_singleton in Hr as ->. right. simpl. lia.
  - split; [lia|]. intros r Hr. apply list_elem_of_filter in Hr as [_ Hr]. by left.
Qed.

Lemma run_fresh es w g :
  sqlite_sequence (guild_data w g) ≤ sqlite_sequence (guild_data (run str_lower es w) g)
  ∧ ∀ r, r ∈ messages (guild_data (run str_lower es w) g) →
         r ∈ messages (guild_data w g) ∨ sqlite_sequence (guild_data w g) < row_id r.
Proof.
  revert w. induction es as [|e es IH]; intros w; simpl.
  - split; [lia | auto].
  - destruct (IH (handle str_lower e w)) as [Hseq Hrows].
    destruct (handle_fresh e w g) as [Hseq1 Hrows1].
    split; [lia|]. intros r Hr.
    destruct (Hrows r Hr) as [Hr1|Hlt]; [|right; lia].
    apply Hrows1 in Hr1. destruct Hr1; [by left | right; lia].
Qed.

(** The listener changes the last-response time of the pair (guild, author)
    of its message only. *)
Lemma on_message_last_response_other now now' m w g u :
  msg_guild m ≠ Some g ∨ msg_author m ≠ u →
  last_response (after (on_message now now' m w)) g u = last_response w g u.
Proof.
  intros Hother.
  destruct (on_message_outcome now now' m w)
    as [(_ & _ & Hlast)|(g0 & r & w1 & Hg & _ & (_ & _ & Hlast) & _ & E)]; [done|].
  rewrite E. unfold after. simpl snd. rewrite last_response_answered.
  rewrite decide_False; [done|]. intros [-> ->]. destruct Hother; congruence.
Qed.

Lemma handle_other_guild e w g :
  event_guild e ≠ Some g →
  guild_data (handle str_lower e w) g = guild_data w g
  ∧ ∀ u, last_response (handle str_lower e w) g u = last_response w g u.
Proof.
  intros Hne.
  assert (∀ g0 f w', g0 ≠ g → wrote g0 f w w' →
            guild_data w' g = guild_data w g
            ∧ ∀ u, last_response w' g u = last_response w g u) as Hw.
  { intros g0 f w' Hg0 H. split.
    - by apply (wrote_guild_data_ne g0 f).
    - intros u. by apply (wrote_last_response g0 f). }
  destruct e as [i b|i c|i|i t r|i id|now now' m]; simpl in *.
  - destruct (int_guild i) as [g0|] eqn:Hg.
    + apply (Hw g0 (set_dict_enabled b)); [congruence | by apply config_enable_wrote].
    + unfold config_enable. by rewrite Hg.
  - destruct (int_guild i) as [g0|] eqn:Hg.
    + apply (Hw g0 (set_dict_cooldown (Z.of_N c)));
        [congruence | by apply config_cooldown_wrote].
    + unfold config_cooldown. by rewrite Hg.
  - by destruct (trig_list_after i w) as [->| ->].
  - destruct (int_guild i) as [g0|] eqn:Hg.
    + apply (Hw g0 (sql_insert (str_lower t) r (int_user i)));
        [congruence | by apply trig_add_wrote].
    + unfold trig_add. by rewrite Hg.
  - destruct (int_guild i) as [g0|] eqn:Hg.
    + apply (Hw g0 (sql_delete id)); [congruence | by apply trig_remove_wrote].
    + unfold trig_remove. by rewrite Hg.
  - split.
    + unfold guild_data. by rewrite on_message_db.
    + intros u. apply on_message_last_response_other. by left.
Qed.

End Frames.

(** ** Private channels, bots and other guilds *)

Lemma commands_outside_guild_aux i w :
  int_guild i = None →
  (∀ b, config_enable i b w = (Returned NotInScope, w))
  ∧ (∀ c, config_cooldown i c w = (Returned NotInScope, w))
  ∧ trig_list i w = (Returned NotInScope, w)
  ∧ (∀ str_lower t r, trig_add str_lower i t r w = (Returned NotInScope, w))
  ∧ (∀ id, trig_remove i id w = (Returned NotInScope, w)).
Proof.
  intros Hg. unfold config_enable, config_cooldown, trig_list, trig_add, trig_remove.
  rewrite Hg. by repeat split.
Qed.

(** X1. In a private channel ([interaction.guild] is not a guild) every
    command answers that it is not available there and the autocompletion
    offers nothing; the state is left exactly as it was and the store is not
    even asked, so this holds while the store is failing too. *)
Theorem commands_outside_guild i w :
  int_guild i = None →
  (∀ b, config_enable i b w = (Returned NotInScope, w))
  ∧ (∀ c, config_cooldown i c w = (Returned NotInScope, w))
  ∧ trig_list i w = (Returned NotInScope, w)
  ∧ (∀ str_lower t r, trig_add str_lower i t r w = (Returned NotInScope, w))
  ∧ (∀ id, trig_remove i id w = (Returned NotInScope, w))
  ∧ (∀ finder current, trig_remove_autocomplete finder i current w = (Returned [], w)).
Proof.
  intros Hg.
  unfold config_enable, config_cooldown, trig_list, trig_add, trig_remove,
    trig_remove_autocomplete.
  rewrite Hg. by repeat split.
Qed.

Lemma commands_outside_guild_witness :
  let dm := {| int_guild := None; int_user := 7 |} in
  trig_add lower dm "gm" "good morning" Scenario.outage = (Returned NotInScope, Scenario.outage)
  ∧ trig_remove dm 1 Scenario.greetings = (Returned NotInScope, Scenario.greetings).
Proof.
  destruct (commands_outside_guild {| int_guild := None; int_user := 7 |} Scenario.outage)
    as (_ & _ & _ & Hadd & _); [reflexivity|].
  destruct (commands_outside_guild {| int_guild := None; int_user := 7 |}
              Scenario.greetings) as (_ & _ & _ & _ & Hrm & _); [reflexivity|].
  split; [apply Hadd | apply Hrm].
Defined.

(** X2. A message written by a bot, or outside a guild, is ignored before
    anything else is done: nothing is sent, no cooldown entry is created, the
    store is not asked (so the listener cannot fail on it). *)
Theorem on_message_ignored now now' m w :
  msg_guild m = None ∨ msg_author_bot m = true →
  on_message now now' m w = (Returned tt, w).
Proof.
  unfold on_message. intros [Hg|Hbot].
  - by rewrite Hg.
  - rewrite Hbot. by destruct (msg_guild m).
Qed.

Lemma on_message_ignored_witness :
  let bot := {| msg_guild := Some 1; msg_channel := 3; msg_author := 99;
                msg_author_bot := true; msg_content := "gm" |} in
  on_message 1762000000 1762000001 bot Scenario.outage = (Returned tt, Scenario.outage).
Proof.
  apply (on_message_ignored 1762000000 1762000001
           {| msg_guild := Some 1; msg_channel := 3; msg_author := 99;
              msg_author_bot := true; msg_content := "gm" |} Scenario.outage).
  right. reflexivity.
Defined.

(** X8. Row ids are never reused (the table is AUTOINCREMENT): along any run
    of events the id counter of a guild does not decrease, and an id that has
    been issued and is no longer in the table does not come back. *)
Theorem ids_never_reused str_lower es w g k :
  k ≤ sqlite_sequence (guild_data w g) →
  (∀ r, r ∈ messages (guild_data w g) → row_id r ≠ k) →
  sqlite_sequence (guild_data w g) ≤ sqlite_sequence (guild_data (run str_lower es w) g)
  ∧ ∀ r, r ∈ messages (guild_data (run str_lower es w) g) → row_id r ≠ k.
Proof.
  intros Hk Hfree. destruct (run_fresh str_lower es w g) as [Hseq Hrows].
  split; [done|]. intros r Hr. destruct (Hrows r Hr) as [Hold|Hnew].
  - by apply Hfree.
  - lia.
Qed.

(** "gm" is added (id 1) and removed; added again, it gets the id 2. *)
Lemma ids_never_reused_witness :
  let w := run lower [TrigAdd Scenario.operator "gm" "good morning";
                TrigRemove Scenario.operator 1] (init []) in
  let w' := run lower [TrigAdd Scenario.operator "gm" "again"] w in
  messages (guild_data w 1) = []
  ∧ (row_id <$> messages (guild_data w' 1)) = [2]
  ∧ ∀ r, r ∈ messages (guild_data w' 1) → row_id r ≠ 1.
Proof.
  split; [reflexivity|]. split; [reflexivity|].
  apply (ids_never_reused lower [TrigAdd Scenario.operator "gm" "again"]
           (run lower [TrigAdd Scenario.operator "gm" "good morning";
                 TrigRemove Scenario.operator 1] (init [])) 1 1).
  - vm_compute. discriminate.
  - intros r Hr. vm_compute in Hr. by apply elem_of_nil in Hr.
Defined.

(** X12. Whatever the store does, [on_message] never writes to the store and
    changes the last-response time of no pair other than the (guild, author)
    of its message: throttling one member does not throttle another, nor the
    same member in another guild. *)
Theorem on_message_frame now now' m w :
  let w' := after (on_message now now' m w) in
  db w' = db w
  ∧ ∀ g u, msg_guild m ≠ Some g ∨ msg_author m ≠ u →
           last_response w' g u = last_response w g u.
Proof.
  cbv zeta. split; [apply on_message_db|].
  intros g u. apply on_message_last_response_other.
Qed.

(** Member 10 is answered; member 11, and member 10 in guild 2, are as
    before. *)
Lemma on_message_frame_witness :
  let w := Scenario.greetings in
  let w' := after (on_message 1762000000 1762000001 (Scenario.says 10 "gm") w) in
  last_response w' 1 10 = 1762000001%Q
  ∧ last_response w' 1 11 = last_response w 1 11
  ∧ last_response w' 2 10 = last_response w 2 10.
Proof.
  destruct (on_message_frame 1762000000 1762000001 (Scenario.says 10 "gm")
              Scenario.greetings) as [_ H].
  split; [reflexivity|]. split.
  - apply H. right. simpl. lia.
  - apply H. left. simpl. discriminate.
Defined.

(** X14. No command sends a channel message or touches the cooldown
    dictionary, whatever the store does: [sent] and [cooldowns] are the same
    after [config_enable], [config_cooldown], [trig_list], [trig_add] and
    [trig_remove]. *)
Theorem commands_send_nothing i w :
  let same w' := sent w' = sent w ∧ cooldowns w' = cooldowns w in
  (∀ b, same (after (config_enable i b w)))
  ∧ (∀ c, same (after (config_cooldown i c w)))
  ∧ same (after (trig_list i w))
  ∧ (∀ str_lower t r, same (after (trig_add str_lower i t r w)))
  ∧ (∀ id, same (after (trig_remove i id w))).
Proof.
  cbv zeta.
  assert (∀ g f w', wrote g f w w' → sent w' = sent w ∧ cooldowns w' = cooldowns w)
    as Hw by (intros g f w' (? & ? & _); done).
  destruct (int_guild i) as [g|] eqn:Hg.
  - repeat split; try intros; try solve
      [ by eapply Hw, config_enable_wrote
      | by eapply Hw, config_cooldown_wrote
      | by eapply Hw, trig_add_wrote
      | by eapply Hw, trig_remove_wrote
      | by destruct (trig_list_after i w) as [->| ->] ].
  - destruct (commands_outside_guild_aux i w Hg) as (He & Hc & Hl & Ha & Hr).
    repeat split; intros; by rewrite ?He, ?Hc, ?Hl, ?Ha, ?Hr.
Qed.

(** X15. Guilds are isolated: a run of events none of which comes from the
    guild [g] leaves the settings, the rows and the id counter of [g], and
    every last-response time of [g], as they were. *)
Theorem other_guilds_untouched str_lower es w g :
  Forall (λ e, event_guild e ≠ Some g) es →
  guild_data (run str_lower es w) g = guild_data w g
  ∧ ∀ u, last_response (run str_lower es w) g u = last_response w g u.
Proof.
  revert w. induction es as [|e es IH]; intros w Hes; simpl; [done|].
  apply Forall_cons in Hes as [He Hes].
  destruct (IH (handle str_lower e w) Hes) as [Hd Hl].
  destruct (handle_other_guild str_lower e w g He) as [Hd1 Hl1].
  split; [congruence|]. intros u. by rewrite Hl, Hl1.
Qed.

(** Guild 1 edits its table and answers a member; guild 2 keeps its unit. *)
Lemma other_guilds_untouched_witness :
  let es := [TrigAdd Scenario.operator "hello" "world";
             ConfigCooldown Scenario.operator 30;
             TrigRemove Scenario.operator 1;
             OnMessage 1762000000 1762000001 (Scenario.says 10 "hello")] in
  let w := run lower [TrigAdd {| int_guild := Some 2; int_user := 8 |} "gm" "good morning"]
             (init []) in
  guild_data (run lower es w) 2 = guild_data w 2
  ∧ guild_data (run lower es w) 1 ≠ guild_data w 1.
Proof.
  split.
  - apply (other_guilds_untouched lower
             [TrigAdd Scenario.operator "hello" "world";
              ConfigCooldown Scenario.operator 30;
              TrigRemove Scenario.operator 1;
              OnMessage 1762000000 1762000001 (Scenario.says 10 "hello")]).
    repeat constructor; simpl; discriminate.
  - vm_compute. discriminate.
Defined.

(** ** Settings *)

Section Settings.

Lemma config_enable_healthy i g b w :
  int_guild i = Some g → healthy w →
  config_enable i b w =
    (Returned Success, set_db (insert g (set_dict_enabled b (guild_data w g))) w).
Proof.
  intros Hg Hw. unfold config_enable, set_enabled, bind. rewrite Hg.
  by rewrite store_write_healthy.
Qed.

Lemma config_cooldown_healthy i g c w :
  int_guild i = Some g → healthy w →
  config_cooldown i c w =
    (Returned Success, set_db (insert g (set_dict_cooldown (Z.of_N c) (guild_data w g))) w).
Proof.
  intros Hg Hw. unfold config_cooldown, set_guild_cooldown, bind. rewrite Hg.
  by rewrite store_write_healthy.
Qed.

Lemma guild_data_written g d w : guild_data (set_db (insert g d) w) g = d.
Proof. rewrite guild_data_insert. by rewrite decide_True. Qed.

End Settings.

(** X4. Disabling stops the listener: with the store answering, after
    [config_enable false] a message of that guild changes nothing at all,
    whatever triggers it contains and however long ago the author was
    answered.  After [config_enable true] the rows, the cooldown and the
    last-response times are those from before, and a message containing a
    stored trigger is answered again exactly when the cooldown test lets it
    through. *)
Theorem disabled_guild_silent now now' i m g w :
  int_guild i = Some g →
  msg_guild m = Some g →
  msg_author_bot m = false →
  healthy w →
  let w1 := after (config_enable i false w) in
  let w2 := after (config_enable i true w1) in
  on_message now now' m w1 = (Returned tt, w1)
  ∧ messages (guild_data w2 g) = messages (guild_data w g)
  ∧ ∀ r, r ∈ messages (guild_data w g) →
         str_in (row_trigger r) (msg_content m) = true →
         sent (after (on_message now now' m w2)) ≠ sent w2
         ↔ cooling_down (last_response w g (msg_author m)) (cooldown (guild_data w g)) now
           = false.
Proof.
  intros Hi Hg Hbot Hw. cbv zeta.
  set (w1 := set_db (insert g (set_dict_enabled false (guild_data w g))) w).
  assert (after (config_enable i false w) = w1) as ->
    by (by rewrite (config_enable_healthy i g false w Hi Hw)).
  assert (healthy w1) as Hw1 by done.
  set (w2 := set_db (insert g (set_dict_enabled true (guild_data w1 g))) w1).
  assert (after (config_enable i true w1) = w2) as ->
    by (by rewrite (config_enable_healthy i g true w1 Hi Hw1)).
  assert (healthy w2) as Hw2 by done.
  assert (guild_data w1 g = set_dict_enabled false (guild_data w g)) as Hd1
    by apply guild_data_written.
  assert (guild_data w2 g = set_dict_enabled true (guild_data w1 g)) as Hd2
    by apply guild_data_written.
  split; [|split].
  - unfold on_message. rewrite Hg, Hbot. unfold bind, is_enabled.
    rewrite store_read_healthy by done. by rewrite Hd1.
  - by rewrite Hd2, Hd1.
  - intros r Hr Hhit.
    assert (enabled (guild_data w2 g) = true) as Hen by by rewrite Hd2.
    assert (r ∈ messages (guild_data w2 g)) as Hr2 by by rewrite Hd2, Hd1.
    rewrite (on_message_emits_iff now now' m g w2 Hg Hbot Hw2 Hen r Hr2 Hhit).
    by rewrite Hd2, Hd1.
Qed.

Lemma disabled_guild_silent_witness :
  let w1 := after (config_enable Scenario.operator false Scenario.greetings) in
  let w2 := after (config_enable Scenario.operator true w1) in
  on_message 1762000000 1762000001 (Scenario.says 10 "gm") w1 = (Returned tt, w1)
  ∧ sent (after (on_message 1762000000 1762000001 (Scenario.says 10 "gm") w2)) ≠ sent w2.
Proof.
  destruct (disabled_guild_silent 1762000000 1762000001 Scenario.operator
              (Scenario.says 10 "gm") 1 Scenario.greetings) as (Hoff & _ & Hon);
    [reflexivity..|].
  split; [exact Hoff|].
  apply (Hon {| row_id := 1; row_trigger := "gm"; row_response := "good morning";
                row_author_id := 7 |}).
  - vm_compute. apply list_elem_of_here.
  - reflexivity.
  - reflexivity.
Defined.

(** ** The table along a run *)

Section Table.

Variable str_lower : string → string.

Lemma ids_ascending_NoDup rows : ids_ascending rows → NoDup (row_id <$> rows).
Proof.
  unfold ids_ascending. induction rows as [|x l IH]; simpl; [constructor|].
  rewrite StronglySorted_cons, Forall_forall. intros [Hx Hl].
  apply NoDup_cons. split; [|by apply IH].
  intros Hin. apply list_elem_of_fmap in Hin as (y & Hy & Hin).
  specialize (Hx y Hin). lia.
Qed.

Lemma handle_ids_positive e w g :
  0 ≤ sqlite_sequence (guild_data w g)
  ∧ Forall (λ r, 0 < row_id r) (messages (guild_data w g)) →
  0 ≤ sqlite_sequence (guild_data (handle str_lower e w) g)
  ∧ Forall (λ r, 0 < row_id r) (messages (guild_data (handle str_lower e w) g)).
Proof.
  intros [Hseq Hpos].
  destruct (handle_guild_data str_lower e w g)
    as [->|[[b ->]|[[c ->]|[(t & r0 & a & ->)|[id ->]]]]]; simpl; try done.
  - split; [lia|]. apply Forall_app. split; [done|]. repeat constructor. simpl. lia.
  - split; [done|]. rewrite Forall_forall in *. intros r Hr.
    apply list_elem_of_filter in Hr as [_ Hr]. by apply Hpos.
Qed.

Lemma run_ids_positive es w g :
  0 ≤ sqlite_sequence (guild_data w g)
  ∧ Forall (λ r, 0 < row_id r) (messages (guild_data w g)) →
  0 ≤ sqlite_sequence (guild_data (run str_lower es w) g)
  ∧ Forall (λ r, 0 < row_id r) (messages (guild_data (run str_lower es w) g)).
Proof.
  revert w. induction es as [|e es IH]; intros w H; simpl; [done|].
  by apply IH, handle_ids_positive.
Qed.

Lemma guild_data_init fs g : guild_data (init fs) g = default_data.
Proof. unfold guild_data. simpl. by rewrite lookup_empty. Qed.

Lemma NoDup_fmap_inj_on {A B} (f : A → B) (l : list A) x y :
  NoDup (f <$> l) → x ∈ l → y ∈ l → f x = f y → x = y.
Proof.
  induction l as [|a l IH]; simpl.
  - intros _ Hx. by apply elem_of_nil in Hx.
  - rewrite NoDup_cons. intros [Ha Hl] Hx Hy Hf.
    apply elem_of_cons in Hx as [->|Hx]; apply elem_of_cons in Hy as [->|Hy].
    + done.
    + exfalso. apply Ha. rewrite Hf. apply list_elem_of_fmap. by exists y.
    + exfalso. apply Ha. rewrite <- Hf. apply list_elem_of_fmap. by exists x.
    + by apply IH.
Qed.

End Table.

(** X5. [str.lower] applied twice being [str.lower], in every state the cog
    reaches from start-up, and for every guild: the rows come in strictly
    ascending id order, so ids are distinct; every id is at least 1 and at
    most the id counter; no two rows have the same trigger; every stored
    trigger is in lower case (it is its own lower case). *)
Theorem reachable_table_invariants str_lower es fs g :
  (∀ s, str_lower (str_lower s) = str_lower s) →
  let d := guild_data (run str_lower es (init fs)) g in
  ids_ascending (messages d)
  ∧ NoDup (row_id <$> messages d)
  ∧ Forall (λ r, 1 ≤ row_id r ≤ sqlite_sequence d) (messages d)
  ∧ NoDup (row_trigger <$> messages d)
  ∧ Forall (λ r, str_lower (row_trigger r) = row_trigger r) (messages d).
Proof.
  intros Hidem. cbv zeta.
  destruct (reachable_ok str_lower Hidem es fs g) as [Hasc Hiss Hlow Hdis _].
  destruct (run_ids_positive str_lower es (init fs) g) as [_ Hpos].
  { rewrite guild_data_init. split; [simpl; lia | constructor]. }
  split; [done|]. split; [by apply ids_ascending_NoDup|]. split; [|done].
  rewrite Forall_forall in *. intros r Hr.
  specialize (Hiss r Hr). specialize (Hpos r Hr). unfold guild_data in *. simpl in *. lia.
Qed.

(** "Hello" then "GM" are added: the table holds "hello" and "gm", ids 1
    and 2. *)
Lemma reachable_table_invariants_witness :
  let d := guild_data (run lower [TrigAdd Scenario.operator "Hello" "hi there";
                                  TrigAdd Scenario.operator "GM" "good morning"]
                         (init [])) 1 in
  (row_trigger <$> messages d) = ["hello"; "gm"]%string
  ∧ NoDup (row_trigger <$> messages d)
  ∧ Forall (λ r, lower (row_trigger r) = row_trigger r) (messages d).
Proof.
  cbv zeta. split; [reflexivity|].
  destruct (reachable_table_invariants lower
              [TrigAdd Scenario.operator "Hello" "hi there";
               TrigAdd Scenario.operator "GM" "good morning"] [] 1 lower_idemp)
    as (_ & _ & _ & Hdis & Hlow).
  split; [exact Hdis | exact Hlow].
Defined.

(** ** Adding and removing *)

Lemma trig_add_success_aux str_lower i g t resp w :
  int_guild i = Some g →
  healthy w →
  trigger_used (str_lower t) (messages (guild_data w g)) = false →
  (length (messages (guild_data w g)) < 20)%nat →
  result (trig_add str_lower i t resp w) = Returned Success
  ∧ messages (guild_data (after (trig_add str_lower i t resp w)) g) =
      messages (guild_data w g) ++
        [{| row_id := sqlite_sequence (guild_data w g) + 1; row_trigger := str_lower t;
            row_response := resp; row_author_id := int_user i |}].
Proof.
  intros Hg Hw Hused Hlen. rewrite (trig_add_healthy str_lower i g) by done.
  cbv zeta. rewrite Hused.
  destruct (Z.geb_spec (Z.of_nat (length (messages (guild_data w g)))) 20) as [?|_];
    [lia|].
  unfold result, after. simpl fst. simpl snd.
  by rewrite guild_data_written.
Qed.

(** X6. With the store answering, adding a trigger that is not stored yet (in
    lower case) to a guild with fewer than 20 rows succeeds: the new row comes
    last, with the next id, the trigger in lower case, the response as given
    and the id of the user as author.  The settings of the guild, the other
    guilds, the cooldown dictionary and the messages sent are unchanged. *)
Theorem trig_add_success str_lower i g t resp w :
  int_guild i = Some g →
  healthy w →
  trigger_used (str_lower t) (messages (guild_data w g)) = false →
  (length (messages (guild_data w g)) < 20)%nat →
  let w' := after (trig_add str_lower i t resp w) in
  result (trig_add str_lower i t resp w) = Returned Success
  ∧ messages (guild_data w' g) =
      messages (guild_data w g) ++
        [{| row_id := sqlite_sequence (guild_data w g) + 1; row_trigger := str_lower t;
            row_response := resp; row_author_id := int_user i |}]
  ∧ sqlite_sequence (guild_data w' g) = sqlite_sequence (guild_data w g) + 1
  ∧ enabled (guild_data w' g) = enabled (guild_data w g)
  ∧ cooldown (guild_data w' g) = cooldown (guild_data w g)
  ∧ (∀ g', g' ≠ g → guild_data w' g' = guild_data w g')
  ∧ cooldowns w' = cooldowns w
  ∧ sent w' = sent w.
Proof.
  intros Hg Hw Hused Hlen. cbv zeta. rewrite (trig_add_healthy str_lower i g) by done.
  cbv zeta. rewrite Hused.
  destruct (Z.geb_spec (Z.of_nat (length (messages (guild_data w g)))) 20) as [?|_];
    [lia|].
  unfold result, after. simpl fst. simpl snd.
  rewrite guild_data_written. repeat split.
  intros g' Hne. rewrite guild_data_insert. by rewrite decide_False.
Qed.

Lemma trig_add_success_witness :
  messages (guild_data (after (trig_add lower Scenario.operator "Good Night" "Sleep well"
                                 Scenario.greetings)) 1)
  = messages (guild_data Scenario.greetings 1) ++
      [{| row_id := 3; row_trigger := "good night"; row_response := "Sleep well";
          row_author_id := 7 |}].
Proof.
  destruct (trig_add_success lower Scenario.operator 1 "Good Night" "Sleep well"
              Scenario.greetings) as (_ & Hrows & _).
  - reflexivity.
  - reflexivity.
  - reflexivity.
  - vm_compute. lia.
  - exact Hrows.
Defined.

(** X7. A trigger just added answers: with the store answering, in an
    enabled guild, a message of a member past the cooldown test whose content
    contains the lower-cased trigger gets exactly one response, and the time
    is stored; the response is the one just added when no row stored before
    has its trigger in the content. *)
Theorem added_trigger_answers str_lower now now' i m g t resp w :
  int_guild i = Some g →
  msg_guild m = Some g →
  msg_author_bot m = false →
  healthy w →
  enabled (guild_data w g) = true →
  trigger_used (str_lower t) (messages (guild_data w g)) = false →
  (length (messages (guild_data w g)) < 20)%nat →
  str_in (str_lower t) (msg_content m) = true →
  cooling_down (last_response w g (msg_author m)) (cooldown (guild_data w g)) now
    = false →
  let w1 := after (trig_add str_lower i t resp w) in
  let w2 := after (on_message now now' m w1) in
  ∃ text,
    sent w2 = sent w ++ [(msg_channel m, text)]
    ∧ last_response w2 g (msg_author m) = now'
    ∧ ((∀ r, r ∈ messages (guild_data w g) →
             str_in (row_trigger r) (msg_content m) = false) → text = resp).
Proof.
  intros Hi Hg Hbot Hw Hen Hused Hlen Hhit Hcool. cbv zeta.
  pose proof (trig_add_healthy str_lower i g t resp w Hi Hw) as E. cbv zeta in E.
  rewrite Hused in E.
  destruct (Z.geb_spec (Z.of_nat (length (messages (guild_data w g)))) 20) as [?|_];
    [lia|].
  set (new := {| row_id := sqlite_sequence (guild_data w g) + 1; row_trigger := str_lower t;
                 row_response := resp; row_author_id := int_user i |}).
  set (w1 := set_db (insert g (sql_insert (str_lower t) resp (int_user i) (guild_data w g)))
               w) in *.
  assert (after (trig_add str_lower i t resp w) = w1) as -> by (by rewrite E).
  assert (guild_data w1 g = sql_insert (str_lower t) resp (int_user i) (guild_data w g))
    as Hd1 by apply guild_data_written.
  assert (healthy w1) as Hw1 by done.
  assert (enabled (guild_data w1 g) = true) as Hen1 by by rewrite Hd1.
  assert (new ∈ messages (guild_data w1 g)) as Hnew.
  { rewrite Hd1. simpl. apply elem_of_app. right. apply list_elem_of_here. }
  destruct (first_match_is_Some (msg_content m) _ new Hnew Hhit) as [r Hfirst].
  assert (cooling_down (last_response w1 g (msg_author m)) (cooldown (guild_data w1 g))
            now = false) as Hcool1 by by rewrite Hd1.
  destruct (on_message_answers now now' m g w1 Hg Hbot Hw1 Hen1 r Hcool1 Hfirst)
    as (_ & Hsent & Hlast & _).
  exists (row_response r). split; [done|]. split; [done|].
  intros Hnone. apply first_match_Some in Hfirst as [Hr Hr_hit].
  rewrite Hd1 in Hr. simpl in Hr. apply elem_of_app in Hr as [Hr|Hr].
  - specialize (Hnone r Hr). congruence.
  - by apply list_elem_of_singleton in Hr as ->.
Qed.

Lemma added_trigger_answers_witness :
  let w1 := after (trig_add lower Scenario.operator "Good Night" "Sleep well"
                     Scenario.greetings) in
  let w2 := after (on_message 1762000000 1762000001
                     (Scenario.says 10 "ok, good night all") w1) in
  sent w2 = [(3, "Sleep well"%string)] ∧ last_response w2 1 10 = 1762000001%Q.
Proof.
  destruct (added_trigger_answers lower 1762000000 1762000001 Scenario.operator
              (Scenario.says 10 "ok, good night all") 1 "Good Night" "Sleep well"
              Scenario.greetings) as (text & Hsent & Hlast & Htext).
  - reflexivity.
  - reflexivity.
  - reflexivity.
  - reflexivity.
  - reflexivity.
  - reflexivity.
  - vm_compute. lia.
  - reflexivity.
  - reflexivity.
  - split; [|exact Hlast]. rewrite Hsent, Htext; [reflexivity|].
    intros r Hr. vm_compute in Hr.
    apply elem_of_cons in Hr as [->|Hr]; [reflexivity|].
    apply list_elem_of_singleton in Hr as ->. reflexivity.
Defined.

(** X9. Adding then removing: with the store answering, when a trigger has
    just been added (the ids in the table being at most the id counter),
    removing the id it was given leaves the rows of the guild exactly as they
    were before the add; the id counter keeps the id that was issued. *)
Theorem add_then_remove str_lower i g t resp w :
  int_guild i = Some g →
  healthy w →
  trigger_used (str_lower t) (messages (guild_data w g)) = false →
  (length (messages (guild_data w g)) < 20)%nat →
  Forall (λ r, row_id r ≤ sqlite_sequence (guild_data w g)) (messages (guild_data w g)) →
  let w1 := after (trig_add str_lower i t resp w) in
  let w2 := after (trig_remove i (sqlite_sequence (guild_data w g) + 1) w1) in
  result (trig_remove i (sqlite_sequence (guild_data w g) + 1) w1) = Returned Success
  ∧ messages (guild_data w2 g) = messages (guild_data w g)
  ∧ sqlite_sequence (guild_data w2 g) = sqlite_sequence (guild_data w g) + 1.
Proof.
  intros Hi Hw Hused Hlen Hiss. cbv zeta.
  pose proof (trig_add_healthy str_lower i g t resp w Hi Hw) as E. cbv zeta in E.
  rewrite Hused in E.
  destruct (Z.geb_spec (Z.of_nat (length (messages (guild_data w g)))) 20) as [?|_];
    [lia|].
  set (w1 := set_db (insert g (sql_insert (str_lower t) resp (int_user i) (guild_data w g)))
               w) in *.
  assert (after (trig_add str_lower i t resp w) = w1) as -> by (by rewrite E).
  assert (healthy w1) as Hw1 by done.
  rewrite (trig_remove_healthy i g _ w1 Hi Hw1).
  unfold result, after. simpl fst. simpl snd.
  rewrite guild_data_written. unfold w1. rewrite guild_data_written. simpl.
  split; [done|]. split; [|done].
  rewrite filter_app, filter_cons_False, filter_nil, app_nil_r by (simpl; intros H; lia).
  apply filter_all. rewrite Forall_forall in Hiss. intros r Hr.
  specialize (Hiss r Hr). simpl in *. lia.
Qed.

Lemma add_then_remove_witness :
  let w1 := after (trig_add lower Scenario.operator "Good Night" "Sleep well"
                     Scenario.greetings) in
  messages (guild_data (after (trig_remove Scenario.operator 3 w1)) 1)
  = messages (guild_data Scenario.greetings 1).
Proof.
  destruct (add_then_remove lower Scenario.operator 1 "Good Night" "Sleep well"
              Scenario.greetings) as (_ & Hrows & _).
  - reflexivity.
  - reflexivity.
  - reflexivity.
  - vm_compute. lia.
  - vm_compute. repeat constructor; discriminate.
  - exact Hrows.
Defined.

(** X10. With the store answering, after [trig_remove] no row of the guild
    has the id given, whatever the table was; every row with another id is
    still there; and removing the same id once more changes nothing. *)
Theorem trig_remove_gone i g id w :
  int_guild i = Some g →
  healthy w →
  let w1 := after (trig_remove i id w) in
  (∀ r, r ∈ messages (guild_data w1 g) ↔ r ∈ messages (guild_data w g) ∧ row_id r ≠ id)
  ∧ after (trig_remove i id w1) = w1.
Proof.
  intros Hi Hw. cbv zeta.
  set (w1 := set_db (insert g (sql_delete id (guild_data w g))) w).
  assert (after (trig_remove i id w) = w1) as ->
    by (by rewrite (trig_remove_healthy i g id w Hi Hw)).
  assert (healthy w1) as Hw1 by done.
  assert (guild_data w1 g = sql_delete id (guild_data w g)) as Hd1
    by apply guild_data_written.
  split.
  - intros r. rewrite Hd1. simpl. rewrite list_elem_of_filter. tauto.
  - rewrite (trig_remove_healthy i g id w1 Hi Hw1). unfold after. simpl snd.
    rewrite Hd1. unfold w1, set_db. simpl. f_equal.
    rewrite insert_insert_eq. f_equal. unfold sql_delete. simpl. f_equal.
    apply filter_all. intros r Hr. by apply list_elem_of_filter in Hr as [? _].
Qed.

Lemma trig_remove_gone_witness :
  let w1 := after (trig_remove Scenario.operator 1 Scenario.greetings) in
  (row_trigger <$> messages (guild_data w1 1)) = ["morning"%string]
  ∧ after (trig_remove Scenario.operator 1 w1) = w1.
Proof.
  split; [reflexivity|].
  apply (trig_remove_gone Scenario.operator 1 1 Scenario.greetings); reflexivity.
Defined.

(** X11. A removed trigger can be added again: with the store answering, in
    a guild whose table has the invariant of the reachable states (full or
    not), removing a row and then adding its trigger succeeds; the trigger
    comes back as the last row, under a new id larger than the old one. *)
Theorem removed_trigger_can_return str_lower i g r resp w :
  int_guild i = Some g →
  healthy w →
  table_ok str_lower (guild_data w g) →
  r ∈ messages (guild_data w g) →
  let w1 := after (trig_remove i (row_id r) w) in
  let w2 := after (trig_add str_lower i (row_trigger r) resp w1) in
  result (trig_add str_lower i (row_trigger r) resp w1) = Returned Success
  ∧ messages (guild_data w2 g) =
      filter (λ r', row_id r' ≠ row_id r) (messages (guild_data w g)) ++
        [{| row_id := sqlite_sequence (guild_data w g) + 1; row_trigger := row_trigger r;
            row_response := resp; row_author_id := int_user i |}]
  ∧ row_id r < sqlite_sequence (guild_data w g) + 1.
Proof.
  intros Hi Hw [Hasc Hiss Hlow Hdis Hlim] Hr. cbv zeta.
  set (w1 := set_db (insert g (sql_delete (row_id r) (guild_data w g))) w).
  assert (after (trig_remove i (row_id r) w) = w1) as ->
    by (by rewrite (trig_remove_healthy i g _ w Hi Hw)).
  assert (healthy w1) as Hw1 by done.
  assert (guild_data w1 g = sql_delete (row_id r) (guild_data w g)) as Hd1
    by apply guild_data_written.
  rewrite Forall_forall in Hiss, Hlow.
  assert (str_lower (row_trigger r) = row_trigger r) as Hr_low by by apply Hlow.
  assert (trigger_used (str_lower (row_trigger r)) (messages (guild_data w1 g)) = false)
    as Hfree.
  { apply not_true_iff_false. rewrite trigger_used_spec, Hd1, Hr_low. simpl.
    intros (r' & Hr' & Ht). apply list_elem_of_filter in Hr' as [Hid Hr'].
    apply Hid. f_equal. by apply (NoDup_fmap_inj_on row_trigger _ r' r Hdis). }
  assert (length (messages (guild_data w1 g)) < 20)%nat as Hlen.
  { rewrite Hd1. simpl.
    pose proof (length_filter_lt (λ r', row_id r' ≠ row_id r) _ r Hr) as H.
    specialize (H ltac:(intros H'; by apply H')). lia. }
  destruct (trig_add_success_aux str_lower i g (row_trigger r) resp w1 Hi Hw1 Hfree Hlen)
    as (Hres & Hrows).
  split; [done|]. split.
  - rewrite Hrows, Hd1, Hr_low. done.
  - specialize (Hiss r Hr). simpl in Hiss. lia.
Qed.

(** On the full table: "a" (id 1) is removed and added again as id 21. *)
Lemma removed_trigger_can_return_witness :
  let r := {| row_id := 1; row_trigger := "a"; row_response := "ok";
              row_author_id := 7 |} in
  let w1 := after (trig_remove Scenario.operator 1 Scenario.full) in
  result (trig_add lower Scenario.operator "a" "back" w1) = Returned Success.
Proof.
  destruct (removed_trigger_can_return lower Scenario.operator 1
              {| row_id := 1; row_trigger := "a"; row_response := "ok";
                 row_author_id := 7 |} "back" Scenario.full) as (Hres & _).
  - reflexivity.
  - reflexivity.
  - apply (reachable_ok lower lower_idemp
             (map (λ t, TrigAdd Scenario.operator t "ok")
                ["a"; "b"; "c"; "d"; "e"; "f"; "g"; "h"; "i"; "j";
                 "k"; "l"; "m"; "n"; "o"; "p"; "q"; "r"; "s"; "t"]%string) [] 1).
  - vm_compute. apply list_elem_of_here.
  - exact Hres.
Defined.

(** ** The cooldown of a member *)

Section Cycle.

Lemma on_message_faults_healthy now now' m g w :
  msg_guild m = Some g → msg_author_bot m = false → healthy w →
  enabled (guild_data w g) = true →
  healthy (after (on_message now now' m w)).
Proof.
  intros Hg Hbot Hw Hen. rewrite (on_message_healthy now now' m g w) by done.
  cbv zeta. unfold healthy in *.
  pose proof (faults_touched g (msg_author m) w) as Hf.
  destruct (cooling_down _ _ _); [by rewrite <- Hw, <- Hf|].
  destruct (first_match _ _); unfold after; simpl; congruence.
Qed.

End Cycle.

(** X13. The cooldown of a member runs from the time read after the send:
    with the store answering, in an enabled guild, once a member has been
    answered and [now1'] stored, the next message of that member containing a
    stored trigger is answered exactly when it comes at a time [now2] with
    [now2 >= now1' + cooldown], the sum rounded to the nearest float as Python
    rounds it.  This is [now2 - now1' >= cooldown] whenever [now1'], the
    cooldown and their exact sum are floats. *)
Theorem cooldown_cycle now1 now1' now2 now2' m1 m2 g w r1 r2 :
  msg_guild m1 = Some g →
  msg_guild m2 = Some g →
  msg_author_bot m1 = false →
  msg_author_bot m2 = false →
  msg_author m2 = msg_author m1 →
  healthy w →
  enabled (guild_data w g) = true →
  r1 ∈ messages (guild_data w g) →
  str_in (row_trigger r1) (msg_content m1) = true →
  r2 ∈ messages (guild_data w g) →
  str_in (row_trigger r2) (msg_content m2) = true →
  cooling_down (last_response w g (msg_author m1)) (cooldown (guild_data w g)) now1
    = false →
  let w1 := after (on_message now1 now1' m1 w) in
  let w2 := after (on_message now2 now2' m2 w1) in
  (sent w2 ≠ sent w1 ↔ (python_add now1' (cooldown (guild_data w g)) <= now2)%Q)
  ∧ (is_float now1' = true
     ∧ is_float (inject_Z (cooldown (guild_data w g))) = true
     ∧ is_float (now1' + inject_Z (cooldown (guild_data w g))) = true →
     sent w2 ≠ sent w1 ↔ (inject_Z (cooldown (guild_data w g)) <= now2 - now1')%Q).
Proof.
  intros Hg1 Hg2 Hb1 Hb2 Hauth Hw Hen Hr1 Hhit1 Hr2 Hhit2 Hcool. cbv zeta.
  destruct (first_match_is_Some (msg_content m1) _ r1 Hr1 Hhit1) as [r Hfirst].
  destruct (on_message_answers now1 now1' m1 g w Hg1 Hb1 Hw Hen r Hcool Hfirst)
    as (_ & _ & Hlast & _ & Hdb).
  pose proof (on_message_faults_healthy now1 now1' m1 g w Hg1 Hb1 Hw Hen) as Hw1.
  set (w1 := after (on_message now1 now1' m1 w)) in *.
  assert (guild_data w1 g = guild_data w g) as Hd1
    by (unfold guild_data; by rewrite Hdb).
  assert (enabled (guild_data w1 g) = true) as Hen1 by by rewrite Hd1.
  assert (r2 ∈ messages (guild_data w1 g)) as Hr2' by by rewrite Hd1.
  assert (sent (after (on_message now2 now2' m2 w1)) ≠ sent w1
          ↔ (python_add now1' (cooldown (guild_data w g)) <= now2)%Q) as Hiff.
  { rewrite (on_message_emits_iff now2 now2' m2 g w1 Hg2 Hb2 Hw1 Hen1 r2 Hr2' Hhit2).
    rewrite Hauth, Hlast, Hd1. apply cooling_down_false. }
  split; [done|]. intros (Hl & Hc & Hs). rewrite Hiff.
  rewrite (python_add_exact _ _ Hl Hc Hs).
  split; intros H; lra.
Qed.

(** Default cooldown of 5 seconds: answered with the clock at 1762000001
    after the send, member 10 is not answered at 1762000005.5 and is answered
    at 1762000006. *)
Lemma cooldown_cycle_witness :
  let w1 := after (on_message 1762000000 1762000001 (Scenario.says 10 "gm")
                     Scenario.greetings) in
  sent (after (on_message (3524000011 # 2) (3524000011 # 2)
                 (Scenario.says 10 "good morning") w1)) = sent w1
  ∧ sent (after (on_message 1762000006 1762000007
                   (Scenario.says 10 "good morning") w1)) ≠ sent w1.
Proof.
  pose (r1 := {| row_id := 1; row_trigger := "gm"; row_response := "good morning";
                 row_author_id := 7 |}).
  pose (r2 := {| row_id := 2; row_trigger := "morning"; row_response := "coffee?";
                 row_author_id := 7 |}).
  split.
  - vm_compute. reflexivity.
  - apply (proj2 (cooldown_cycle 1762000000 1762000001 1762000006 1762000007
                    (Scenario.says 10 "gm") (Scenario.says 10 "good morning") 1
                    Scenario.greetings r1 r2 eq_refl eq_refl eq_refl eq_refl eq_refl
                    eq_refl eq_refl ltac:(vm_compute; apply list_elem_of_here) eq_refl
                    ltac:(vm_compute; apply list_elem_of_further, list_elem_of_here)
                    eq_refl eq_refl)).
    + vm_compute. done.
    + vm_compute. discriminate.
Defined.

(** ** What the listener sends *)

(** X17. Whatever the state and the store do, [on_message] either sends
    nothing, or sends one message to the channel of the message it handles:
    the response of a row of that guild whose trigger occurs in the content
    as a contiguous substring, to an author that is not a bot.  It never
    sends a text that is not a stored response. *)
Theorem on_message_sends_stored_responses now now' m w :
  let w' := after (on_message now now' m w) in
  sent w' = sent w
  ∨ ∃ g r a b,
      msg_guild m = Some g
      ∧ msg_author_bot m = false
      ∧ r ∈ messages (guild_data w g)
      ∧ msg_content m = (a ++ row_trigger r ++ b)%string
      ∧ sent w' = sent w ++ [(msg_channel m, row_response r)].
Proof.
  cbv zeta.
  destruct (on_message_outcome now now' m w)
    as [(_ & Hsent & _)|(g & r & w1 & Hg & Hbot & (_ & Hsent & _) & Hfirst & E)];
    [by left|].
  right. apply first_match_Some in Hfirst as [Hr Hhit].
  apply str_in_spec in Hhit as (a & b & Hab).
  exists g, r, a, b. repeat split; try done.
  rewrite E. unfold after. simpl snd. by rewrite sent_answered, Hsent.
Qed.

(** ** Listing and autocompletion *)

(** X16. [trig_list] never writes to the store, whatever the store does.
    With the store answering it leaves the state as it is and answers with
    all the rows of the guild in table order, or with the "no trigger"
    message exactly when the guild has no row (never with an empty list). *)
Theorem trig_list_spec i w :
  db (after (trig_list i w)) = db w
  ∧ ∀ g, int_guild i = Some g → healthy w →
         after (trig_list i w) = w
         ∧ (messages (guild_data w g) = [] → result (trig_list i w) = Returned NoTriggers)
         ∧ (messages (guild_data w g) ≠ [] →
            result (trig_list i w) = Returned (Listing (messages (guild_data w g)))).
Proof.
  split.
  - by destruct (trig_list_after i w) as [->| ->].
  - intros g Hg Hw. unfold trig_list, bind. rewrite Hg.
    rewrite get_messages_healthy by done.
    destruct (messages (guild_data w g)); repeat split; try done.
Qed.

Lemma trig_list_spec_witness :
  result (trig_list Scenario.operator (init [])) = Returned NoTriggers
  ∧ result (trig_list Scenario.operator Scenario.hi) =
      Returned (Listing [{| row_id := 1; row_trigger := "hi"; row_response := "hello";
                            row_author_id := 7 |}]).
Proof.
  split.
  - apply (proj2 (trig_list_spec Scenario.operator (init [])) 1); reflexivity.
  - apply (proj2 (trig_list_spec Scenario.operator Scenario.hi) 1);
      [reflexivity | reflexivity | vm_compute; discriminate].
Defined.

(** X18. The autocompletion of [trig remove] only reads: whatever the finder
    and the store do, the store, the cooldown dictionary and the messages
    sent are as before.  With the store answering, when the finder returns
    rows among the candidates it is given, every choice offered carries the
    id of a row that is in the table, and is labelled with that id and the
    row's trigger. *)
Theorem autocomplete_offers_live_ids finder i current w :
  let w' := after (trig_remove_autocomplete finder i current w) in
  (db w' = db w ∧ cooldowns w' = cooldowns w ∧ sent w' = sent w)
  ∧ ∀ g, int_guild i = Some g → healthy w →
         (∀ rows r, r ∈ finder current rows → r ∈ rows) →
         ∃ choices,
           trig_remove_autocomplete finder i current w = (Returned choices, w)
           ∧ ∀ c, c ∈ choices →
                  ∃ r, r ∈ messages (guild_data w g)
                       ∧ choice_value c = row_id r
                       ∧ choice_name c =
                           (pretty (row_id r) +:+ " : " +:+ row_trigger r)%string.
Proof.
  cbv zeta. split.
  - unfold trig_remove_autocomplete, bind. destruct (int_guild i) as [g|]; [|done].
    by destruct (get_messages_step g w) as [E|E]; rewrite E.
  - intros g Hg Hw Hsub. unfold trig_remove_autocomplete, bind. rewrite Hg.
    rewrite get_messages_healthy by done. eexists. split; [reflexivity|].
    intros c Hc. apply list_elem_of_fmap in Hc as (r & -> & Hr).
    exists r. split; [by apply Hsub | done].
Qed.

(** A finder that keeps the rows whose trigger contains the text typed. *)
Lemma autocomplete_offers_live_ids_witness :
  let finder := λ current rows, filter (λ r, str_in current (row_trigger r) = true) rows in
  result (trig_remove_autocomplete finder Scenario.operator "orn" Scenario.greetings)
  = Returned [{| choice_name := "2 : morning"; choice_value := 2 |}]
  ∧ ∃ choices,
      trig_remove_autocomplete finder Scenario.operator "orn" Scenario.greetings
      = (Returned choices, Scenario.greetings)
      ∧ ∀ c, c ∈ choices → ∃ r, r ∈ messages (guild_data Scenario.greetings 1)
                               ∧ choice_value c = row_id r
                               ∧ choice_name c =
                                   (pretty (row_id r) +:+ " : " +:+ row_trigger r)%string.
Proof.
  cbv zeta. split; [vm_compute; reflexivity|].
  apply (proj2 (autocomplete_offers_live_ids
                  (λ current rows,
                     filter (λ r, str_in current (row_trigger r) = true) rows)
                  Scenario.operator "orn" Scenario.greetings) 1).
  - reflexivity.
  - reflexivity.
  - intros rows r Hr. by apply list_elem_of_filter in Hr as [_ Hr].
Defined.


(** ** More on the settings and on failed commands *)

Section Bounds.

Variable str_lower : string → string.

Lemma handle_cooldown_nonneg e w g :
  0 ≤ cooldown (guild_data w g) → 0 ≤ cooldown (guild_data (handle str_lower e w) g).
Proof.
  intros H.
  destruct (handle_guild_data str_lower e w g)
    as [->|[[b ->]|[[c ->]|[(t & r0 & a & ->)|[id ->]]]]]; simpl; lia.
Qed.

Lemma run_cooldown_nonneg es w g :
  0 ≤ cooldown (guild_data w g) → 0 ≤ cooldown (guild_data (run str_lower es w) g).
Proof.
  revert w. induction es as [|e es IH]; intros w H; simpl; [done|].
  by apply IH, handle_cooldown_nonneg.
Qed.

End Bounds.

(** X19. The cooldown of a guild is never negative: it is 5 at start-up and
    [config_cooldown] only takes integers from 0 on.  So in every state the
    cog reaches, a member whose last response was stored at time [last] is
    not let through by the cooldown test at any time before [last]. *)
Theorem reachable_cooldown_nonneg str_lower es fs g :
  let w := run str_lower es (init fs) in
  0 ≤ cooldown (guild_data w g)
  ∧ ∀ last now, (now < last)%Q →
                cooling_down last (cooldown (guild_data w g)) now = true.
Proof.
  cbv zeta.
  assert (0 ≤ cooldown (guild_data (run str_lower es (init fs)) g)) as Hcd.
  { apply run_cooldown_nonneg. rewrite guild_data_init. simpl. lia. }
  split; [done|]. intros last now Hlt.
  apply not_false_iff_true. rewrite cooling_down_false. intros Hle.
  pose proof (python_add_ge last _ Hcd). lra.
Qed.

(** With the default cooldown, a member answered with the clock at
    1762000001 is held back at 1762000000. *)
Lemma reachable_cooldown_nonneg_witness :
  cooling_down 1762000001 (cooldown (guild_data Scenario.greetings 1)) 1762000000 = true.
Proof.
  apply (proj2 (reachable_cooldown_nonneg lower
                  [TrigAdd Scenario.operator "gm" "good morning";
                   TrigAdd Scenario.operator "morning" "coffee?"] [] 1)
           1762000001%Q 1762000000%Q).
  vm_compute. reflexivity.
Defined.

(** X20. A cooldown of 0 switches the throttle off: with the store answering,
    after [config_cooldown 0], in an enabled guild, a message containing a
    stored trigger is answered whenever the clock is not before the author's
    last response. *)
Theorem zero_cooldown_answers now now' i m g w r :
  int_guild i = Some g →
  msg_guild m = Some g →
  msg_author_bot m = false →
  healthy w →
  enabled (guild_data w g) = true →
  r ∈ messages (guild_data w g) →
  str_in (row_trigger r) (msg_content m) = true →
  (last_response w g (msg_author m) <= now)%Q →
  let w1 := after (config_cooldown i 0 w) in
  sent (after (on_message now now' m w1)) ≠ sent w1.
Proof.
  intros Hi Hg Hbot Hw Hen Hr Hhit Hle. cbv zeta.
  set (w1 := set_db (insert g (set_dict_cooldown (Z.of_N 0) (guild_data w g))) w).
  assert (after (config_cooldown i 0 w) = w1) as ->
    by (by rewrite (config_cooldown_healthy i g 0 w Hi Hw)).
  assert (healthy w1) as Hw1 by done.
  assert (guild_data w1 g = set_dict_cooldown 0 (guild_data w g)) as Hd1
    by apply guild_data_written.
  assert (enabled (guild_data w1 g) = true) as Hen1 by by rewrite Hd1.
  assert (r ∈ messages (guild_data w1 g)) as Hr1 by by rewrite Hd1.
  rewrite (on_message_emits_iff now now' m g w1 Hg Hbot Hw1 Hen1 r Hr1 Hhit).
  rewrite Hd1. simpl. apply cooling_down_false.
  change (last_response w1 g (msg_author m)) with (last_response w g (msg_author m)).
  by rewrite python_add_0.
Qed.

(** Answered with the clock at 1762000001, member 10 is answered again at
    that very time once the cooldown is 0. *)
Lemma zero_cooldown_answers_witness :
  let w := after (on_message 1762000000 1762000001 (Scenario.says 10 "gm")
                    Scenario.greetings) in
  let w1 := after (config_cooldown Scenario.operator 0 w) in
  sent (after (on_message 1762000001 1762000002 (Scenario.says 10 "gm") w1)) ≠ sent w1.
Proof.
  apply (zero_cooldown_answers 1762000001 1762000002 Scenario.operator
           (Scenario.says 10 "gm") 1
           (after (on_message 1762000000 1762000001 (Scenario.says 10 "gm")
                     Scenario.greetings))
           {| row_id := 1; row_trigger := "gm"; row_response := "good morning";
              row_author_id := 7 |}).
  - reflexivity.
  - reflexivity.
  - reflexivity.
  - reflexivity.
  - reflexivity.
  - vm_compute. apply list_elem_of_here.
  - reflexivity.
  - vm_compute. discriminate.
Defined.

(** X21. [trig_add] writes only when it answers with its success message:
    whatever the store does, when it answers that the trigger is already
    used or that the limit is reached, or ends on a store failure, the store
    is as it was. *)
Theorem trig_add_writes_only_on_success str_lower i t resp w :
  result (trig_add str_lower i t resp w) ≠ Returned Success →
  db (after (trig_add str_lower i t resp w)) = db w.
Proof.
  unfold trig_add, add_message, bind.
  destruct (int_guild i) as [g|]; [|done].
  destruct (get_messages_step g w) as [E|E]; rewrite E; [|done].
  destruct (trigger_used _ _); [done|].
  destruct (_ >=? _)%Z; [done|].
  destruct (store_write_step g (sql_insert (str_lower t) resp (int_user i))
              (set_faults tail w)) as [E2|E2]; rewrite E2; [done|].
  intros H. by destruct H.
Qed.

Lemma trig_add_writes_only_on_success_witness :
  let w := set_faults (λ _, [false; true]) Scenario.greetings in
  result (trig_add lower Scenario.operator "new" "text" w) = Raised StoreUnavailable
  ∧ db (after (trig_add lower Scenario.operator "new" "text" w)) = db w.
Proof.
  split; [reflexivity|].
  apply (trig_add_writes_only_on_success lower Scenario.operator "new" "text"
           (set_faults (λ _, [false; true]) Scenario.greetings)).
  vm_compute. discriminate.
Defined.
